(** * The workflow engine of openagent (package [workflow])

    A shallow embedding of [DefaultEngine.Execute] and
    [DefaultEngine.ExecuteStep] together with the data model they work on,
    and the properties of the engine stated against that embedding.

    Conventions of the embedding.
    - A Go pointer that a function returns ([*StepResult], [*WorkflowResult])
      is an [option]: [None] is the nil pointer.
    - A Go [error] is an [option error]: [None] is the nil error.
    - A Go [map[string]T] that is only ranged over or indexed is a
      [gmap string T]; ranging over a nil map and over an empty map do the
      same, so both are [∅].  The one map whose nil-ness is observable, the
      [Output] of a [StepResult], is an [option (gmap string Value)].
    - Action handlers are Go closures: they may keep state and they see the
      context.  The state they close over is the [World]; the engine threads
      it through every invocation.
    - [time.Now] reads a clock the engine does not control: reading number
      [n] of a run returns [Now n].
    - Handlers are taken to be non-nil functions that return; [w] and [step]
      are non-nil pointers. *)

From Stdlib Require Import ZArith Lia Ascii String.
From stdpp Require Import gmap strings list fin_maps.
From stdpp Require Import pretty sorting.

Open Scope Z_scope.
Open Scope string_scope.

(** ** Values, errors, time *)

(** [interface{}] values carried by the input and output maps.  The engine
    only copies them, so the scalar kinds are enough. *)
Inductive Value :=
| VNil
| VBool (b : bool)
| VInt (n : Z)
| VString (s : string).

(** Go errors as the engine builds them: [errors.New]/[fmt.Errorf] without
    [%w] give a plain message, [fmt.Errorf] with [%w] keeps the cause. *)
Inductive error :=
| errorString (msg : string)
| wrapError (msg : string) (cause : error).

Definition Error_msg (e : error) : string :=
  match e with
  | errorString m => m
  | wrapError m _ => m
  end.

(** [fmt.Errorf("invalid timeout: %w", err)] *)
Definition Errorf_invalid_timeout (err : error) : error :=
  wrapError ("invalid timeout: " ++ Error_msg err) err.

(** [fmt.Errorf("unknown action: %s", name)] *)
Definition Errorf_unknown_action (name : string) : error :=
  errorString ("unknown action: " ++ name).

(** [time.Duration] is an int64 count of nanoseconds; a [time.Time] is
    modelled by its nanosecond reading. *)
Definition Duration := Z.
Definition Time := Z.

Definition minDuration : Duration := - 2 ^ 63.
Definition maxDuration : Duration := 2 ^ 63 - 1.

(** [t.Sub(u)]: the difference, saturated to the range of [Duration]. *)
Definition Sub (t u : Time) : Duration :=
  let d := t - u in
  if (d <? minDuration)%Z then minDuration
  else if (maxDuration <? d)%Z then maxDuration
  else d.

(** ** Data model (types.go) *)

Definition StepType := string.

Inductive StepStatus :=
| StatusPending
| StatusRunning
| StatusCompleted
| StatusFailed
| StatusSkipped.

Record ErrorHandler := {
  eh_Action : string;
  eh_Message : string
}.

Module Step.
Record t := mk {
  ID : string;
  Name : string;
  Typ : StepType;
  Action : string;
  With : gmap string Value;
  Env : gmap string string;
  If : string;
  DependsOn : list string;
  Timeout : string;
  Retries : Z;
  OnError : option ErrorHandler
}.
End Step.

Module Workflow.
Record t := mk {
  Name : string;
  Version : string;
  Description : string;
  Env : gmap string string;
  Steps : list Step.t;
  OnError : option ErrorHandler;
  Timeout : string
}.
End Workflow.

Module StepResult.
Record t := mk {
  StepID : string;
  Status : StepStatus;
  Output : option (gmap string Value);
  Error : option error;
  StartTime : Time;
  EndTime : Time;
  Duration : Duration
}.

Definition setFailed (r : t) (err : error) : t :=
  mk (StepID r) StatusFailed (Output r) (Some err)
     (StartTime r) (EndTime r) (Duration r).

Definition setCompleted (r : t) (out : option (gmap string Value)) : t :=
  mk (StepID r) StatusCompleted out (Error r)
     (StartTime r) (EndTime r) (Duration r).

(** [r.EndTime = now; r.Duration = r.EndTime.Sub(r.StartTime)] *)
Definition finish (r : t) (now : Time) : t :=
  mk (StepID r) (Status r) (Output r) (Error r)
     (StartTime r) now (Sub now (StartTime r)).
End StepResult.

Module WorkflowResult.
Record t := mk {
  WorkflowName : string;
  Status : StepStatus;
  Steps : list (option StepResult.t);
  StartTime : Time;
  EndTime : Time;
  Duration : Duration;
  Error : option error
}.

Definition appendStep (r : t) (sr : option StepResult.t) : t :=
  mk (WorkflowName r) (Status r) (Steps r ++ [sr])
     (StartTime r) (EndTime r) (Duration r) (Error r).

Definition setFailed (r : t) (err : error) : t :=
  mk (WorkflowName r) StatusFailed (Steps r)
     (StartTime r) (EndTime r) (Duration r) (Some err).

Definition setCompleted (r : t) : t :=
  mk (WorkflowName r) StatusCompleted (Steps r)
     (StartTime r) (EndTime r) (Duration r) (Error r).

Definition finish (r : t) (now : Time) : t :=
  mk (WorkflowName r) (Status r) (Steps r)
     (StartTime r) now (Sub now (StartTime r)) (Error r).
End WorkflowResult.

(** ** What the engine takes from its environment *)

Class Runtime := {
  (** state that action handlers close over *)
  World : Type;
  (** [context.Context] and [context.WithTimeout] *)
  Context : Type;
  WithTimeout : Context -> Duration -> Context;
  (** [time.ParseDuration] *)
  ParseDuration : string -> Duration + error;
  (** the [n]-th reading of [time.Now] in a run *)
  Now : nat -> Time
}.

Section Engine.
Context `{RT : Runtime}.

(** [type ActionHandler func(ctx, inputs) (map[string]interface{}, error)] *)
Definition ActionHandler : Type :=
  Context -> gmap string Value -> World ->
  (option (gmap string Value) * option error) * World.

(** One handler invocation, as an observer counts it: the action name under
    which the handler was found and the inputs it was given. *)
Definition Invocation : Type := string * gmap string Value.

Record RunState := {
  world : World;
  ticks : nat;
  calls : list Invocation
}.

Definition M (A : Type) : Type := RunState -> A * RunState.

Definition ret {A} (a : A) : M A := fun s => (a, s).

Definition bind {A B} (m : M A) (k : A -> M B) : M B :=
  fun s => let (a, s') := m s in k a s'.

Notation "'let*' x := m 'in' k" := (bind m (fun x => k))
  (at level 10, x name, m at level 100, k at level 200).

(** [time.Now()] *)
Definition time_Now : M Time :=
  fun s => (Now (ticks s),
            {| world := world s; ticks := S (ticks s); calls := calls s |}).

(** [handler(ctx, inputs)], with the invocation recorded. *)
Definition invoke (name : string) (h : ActionHandler) (ctx : Context)
    (inputs : gmap string Value)
  : M (option (gmap string Value) * option error) :=
  fun s => let (r, w') := h ctx inputs (world s) in
           (r, {| world := w'; ticks := ticks s;
                  calls := calls s ++ [(name, inputs)] |}).

(** ** engine.go *)

Record DefaultEngine := {
  actions : gmap string ActionHandler
}.

Definition NewEngine : DefaultEngine := {| actions := ∅ |}.

Definition RegisterAction (e : DefaultEngine) (name : string)
    (handler : ActionHandler) : DefaultEngine :=
  {| actions := <[name := handler]> (actions e) |}.

(** [for k, v := range src { dst[k] = v }] *)
Definition copyInto (src dst : gmap string Value) : gmap string Value :=
  map_fold (fun k v acc => <[k := v]> acc) dst src.

(** The [if timeout != "" { d, err := time.ParseDuration(timeout); ... }]
    prologue shared by [Execute] and [ExecuteStep]: the context to go on
    with, or the parse error. *)
Definition applyTimeout (ctx : Context) (timeout : string) : Context + error :=
  if decide (timeout = "") then inl ctx
  else match ParseDuration timeout with
       | inl d => inl (WithTimeout ctx d)
       | inr err => inr err
       end.

Definition ExecuteStep (e : DefaultEngine) (ctx : Context) (step : Step.t)
    (inputs : gmap string Value)
  : M (option StepResult.t * option error) :=
  let* start := time_Now in
  let result :=
    StepResult.mk (Step.ID step) StatusRunning None None start 0 0 in
  match applyTimeout ctx (Step.Timeout step) with
  | inr err =>
      let result :=
        StepResult.setFailed result (Errorf_invalid_timeout err) in
      let* now := time_Now in
      let result := StepResult.finish result now in
      ret (Some result, StepResult.Error result)
  | inl ctx =>
      let allInputs := copyInto (Step.With step) (copyInto inputs ∅) in
      match actions e !! Step.Action step with
      | None =>
          let result :=
            StepResult.setFailed result
              (Errorf_unknown_action (Step.Action step)) in
          let* now := time_Now in
          let result := StepResult.finish result now in
          ret (Some result, StepResult.Error result)
      | Some handler =>
          let* r := invoke (Step.Action step) handler ctx allInputs in
          match r with
          | (_, Some err) =>
              let result := StepResult.setFailed result err in
              let* now := time_Now in
              let result := StepResult.finish result now in
              ret (Some result, Some err)
          | (output, None) =>
              let result := StepResult.setCompleted result output in
              let* now := time_Now in
              let result := StepResult.finish result now in
              ret (Some result, None)
          end
      end
  end.

(** The body of [for _, step := range w.Steps { ... }] followed by the
    code after the loop. *)
Fixpoint runSteps (e : DefaultEngine) (ctx : Context) (steps : list Step.t)
    (result : WorkflowResult.t)
  : M (option WorkflowResult.t * option error) :=
  match steps with
  | [] =>
      let result := WorkflowResult.setCompleted result in
      let* now := time_Now in
      let result := WorkflowResult.finish result now in
      ret (Some result, None)
  | step :: rest =>
      let* r := ExecuteStep e ctx step ∅ in
      let (stepResult, err) := r : option StepResult.t * option error in
      let result := WorkflowResult.appendStep result stepResult in
      match err with
      | Some err =>
          let result := WorkflowResult.setFailed result err in
          let* now := time_Now in
          let result := WorkflowResult.finish result now in
          ret (Some result, Some err)
      | None => runSteps e ctx rest result
      end
  end.

Definition Execute (e : DefaultEngine) (ctx : Context) (w : Workflow.t)
  : M (option WorkflowResult.t * option error) :=
  let* start := time_Now in
  let result :=
    WorkflowResult.mk (Workflow.Name w) StatusRunning [] start 0 0 None in
  match applyTimeout ctx (Workflow.Timeout w) with
  | inr err => ret (None, Some (Errorf_invalid_timeout err))
  | inl ctx => runSteps e ctx (Workflow.Steps w) result
  end.

End Engine.

Arguments ActionHandler : clear implicits.
Arguments ActionHandler {RT}.

(** ** [time.ParseDuration], after the Go standard library

    The engine's only use of the parser is to tell a well-formed duration
    from a malformed one and to hand the value to [context.WithTimeout].
    A duration is an optional sign followed by one or more groups of a
    decimal number (digits, optionally a point and more digits) and a unit,
    or the single digit zero.  The library multiplies the fraction by the
    unit in float64; [fractionNanos] does the same, rounding each float64
    operation to the nearest value with 53 significant bits, ties to even
    (the values that occur are positive and in the normal range). *)
Module time.

Definition isDigit (c : ascii) : bool :=
  (48 <=? nat_of_ascii c)%nat && (nat_of_ascii c <=? 57)%nat.

Definition digitVal (c : ascii) : Z := Z.of_nat (nat_of_ascii c) - 48.

Definition isDot (c : ascii) : bool := (nat_of_ascii c =? 46)%nat.

Definition lowerhex (n : nat) : ascii :=
  match String.get n "0123456789abcdef" with
  | Some c => c
  | None => "0"%char
  end.

(** [quote]: the text between double quotes; a double quote or a backslash
    gets a backslash before it, and every byte below the space or above
    ASCII is written as a backslash, an x and two hexadecimal digits. *)
Fixpoint quoteBody (s : string) : string :=
  match s with
  | EmptyString => EmptyString
  | String c rest =>
      let n := nat_of_ascii c in
      if (128 <=? n)%nat || (n <? 32)%nat
      then String (ascii_of_nat 92)
             (String "x"%char
                (String (lowerhex (n / 16))
                   (String (lowerhex (n mod 16)) (quoteBody rest))))
      else if (n =? 34)%nat || (n =? 92)%nat
      then String (ascii_of_nat 92) (String c (quoteBody rest))
      else String c (quoteBody rest)
  end.

Definition quote (s : string) : string :=
  String (ascii_of_nat 34)
    (quoteBody s ++ String (ascii_of_nat 34) EmptyString).

Definition errInvalid (orig : string) : error :=
  errorString ("time: invalid duration " ++ quote orig).

Definition errMissingUnit (orig : string) : error :=
  errorString ("time: missing unit in duration " ++ quote orig).

Definition errUnknownUnit (u orig : string) : error :=
  errorString ("time: unknown unit " ++ quote u ++ " in duration "
               ++ quote orig).

(** [leadingInt]: the leading digits as a number, [None] on overflow. *)
Fixpoint leadingInt (x : Z) (s : string) : option (Z * string) :=
  match s with
  | String c rest =>
      if isDigit c then
        if (2 ^ 63 / 10 <? x)%Z then None
        else
          let x' := x * 10 + digitVal c in
          if (2 ^ 63 <? x')%Z then None else leadingInt x' rest
      else Some (x, s)
  | EmptyString => Some (x, s)
  end.

(** [leadingFraction]: digits after the point; on overflow the remaining
    digits are consumed and dropped. *)
Fixpoint leadingFraction (x scale : Z) (overflow : bool) (s : string)
  : Z * Z * string :=
  match s with
  | String c rest =>
      if isDigit c then
        if overflow then leadingFraction x scale true rest
        else if ((2 ^ 63 - 1) / 10 <? x)%Z
             then leadingFraction x scale true rest
        else
          let y := x * 10 + digitVal c in
          if (2 ^ 63 <? y)%Z then leadingFraction x scale true rest
          else leadingFraction y (scale * 10) false rest
      else (x, scale, s)
  | EmptyString => (x, scale, s)
  end.

(** The unit: everything up to the next digit or point. *)
Fixpoint splitUnit (s : string) : string * string :=
  match s with
  | String c rest =>
      if isDot c || isDigit c then (EmptyString, s)
      else let (u, r) := splitUnit rest in (String c u, r)
  | EmptyString => (EmptyString, EmptyString)
  end.

(** The quotient of [num] by [den], rounded to the nearest integer, ties to
    the even one. *)
Definition roundHalfEven (num den : Z) : Z :=
  let q := num / den in
  let r := num mod den in
  if (den <? 2 * r)%Z then q + 1
  else if (2 * r =? den)%Z && Z.odd q then q + 1
  else q.

(** The float64 nearest to the positive ratio [num / den], as a fraction:
    a significand of 53 bits times a power of two. *)
Definition float64_of_ratio (num den : Z) : Z * Z :=
  let e1 := Z.log2 num - Z.log2 den - 52 in
  let scaled (e : Z) : Z * Z :=
    if (0 <=? e)%Z then (num, den * 2 ^ e) else (num * 2 ^ (- e), den) in
  let e :=
    let (n, d) := scaled e1 in
    if (2 ^ 52 <=? n / d)%Z then e1 else e1 - 1 in
  let (n, d) := scaled e in
  let m := roundHalfEven n d in
  if (0 <=? e)%Z then (m * 2 ^ e, 1) else (m, 2 ^ (- e)).

(** [uint64(float64(f) * (float64(unit) / scale))], for [f > 0]. *)
Definition fractionNanos (f unit scale : Z) : Z :=
  let (fn, fd) := float64_of_ratio f 1 in
  let (qn, qd) := float64_of_ratio unit scale in
  let (pn, pd) := float64_of_ratio (fn * qn) (fd * qd) in
  pn / pd.

Definition unitMap (u : string) : option Z :=
  if decide (u = "ns") then Some 1
  else if decide (u = "us") then Some 1000
  else if decide (u = "µs") then Some 1000
  else if decide (u = "μs") then Some 1000
  else if decide (u = "ms") then Some 1000000
  else if decide (u = "s") then Some 1000000000
  else if decide (u = "m") then Some 60000000000
  else if decide (u = "h") then Some 3600000000000
  else None.

(** One round of the [for s != ""] loop: a number and its unit, as
    nanoseconds, and the text that is left. *)
Definition group (orig s : string) : Z * string + error :=
  match s with
  | EmptyString => inr (errInvalid orig)
  | String c _ =>
      if negb (isDot c || isDigit c) then inr (errInvalid orig)
      else
        match leadingInt 0 s with
        | None => inr (errInvalid orig)
        | Some (v, s1) =>
            let pre := negb (String.length s =? String.length s1)%nat in
            let '(f, scale, s2, post) :=
              match s1 with
              | String c1 rest1 =>
                  if isDot c1 then
                    let '(f, scale, s2) := leadingFraction 0 1 false rest1 in
                    (f, scale, s2,
                     negb (String.length rest1 =? String.length s2)%nat)
                  else (0, 1, s1, false)
              | EmptyString => (0, 1, s1, false)
              end in
            if negb pre && negb post then inr (errInvalid orig)
            else
              let (u, s3) := splitUnit s2 in
              if decide (u = EmptyString) then inr (errMissingUnit orig)
              else
                match unitMap u with
                | None => inr (errUnknownUnit u orig)
                | Some unit =>
                    if (2 ^ 63 / unit <? v)%Z then inr (errInvalid orig)
                    else
                      let v := v * unit in
                      let v :=
                        if (0 <? f)%Z then v + fractionNanos f unit scale
                        else v in
                      if (2 ^ 63 <? v)%Z then inr (errInvalid orig)
                      else inl (v, s3)
                end
        end
  end.

(** The loop itself.  A round consumes at least its unit, so
    [String.length s] rounds are enough for [s] ([groups_fuel] below). *)
Fixpoint groups (fuel : nat) (orig : string) (d : Z) (s : string)
  : Z + error :=
  match s with
  | EmptyString => inl d
  | String _ _ =>
      match fuel with
      | O => inr (errInvalid orig)
      | S fuel =>
          match group orig s with
          | inr err => inr err
          | inl (v, rest) =>
              let d := d + v in
              if (2 ^ 63 <? d)%Z then inr (errInvalid orig)
              else groups fuel orig d rest
          end
      end
  end.

Definition ParseDuration (orig : string) : Duration + error :=
  let (neg, s) :=
    match orig with
    | String c rest =>
        if decide (c = "-"%char) then (true, rest)
        else if decide (c = "+"%char) then (false, rest)
        else (false, orig)
    | EmptyString => (false, orig)
    end in
  if decide (s = "0") then inl 0
  else if decide (s = "") then inr (errInvalid orig)
  else
    match groups (String.length s) orig 0 s with
    | inr err => inr err
    | inl d =>
        if neg then inl (- d)
        else if (2 ^ 63 - 1 <? d)%Z then inr (errInvalid orig)
        else inl d
    end.

End time.

(** ** A concrete runtime and stub actions

    Stub handlers count their own invocations: the world is that counter.
    A context is the list of timeouts laid over the background context,
    innermost first; the clock advances one millisecond per reading. *)

Definition stubRuntime : Runtime := {|
  World := nat;
  Context := list Duration;
  WithTimeout := fun ctx d => d :: ctx;
  ParseDuration := time.ParseDuration;
  Now := fun n => Z.of_nat n * 1000000
|}.

Definition background : @Context stubRuntime := [].

Definition initial : @RunState stubRuntime :=
  @Build_RunState stubRuntime 0%nat 0%nat [].

(** [func(ctx, inputs) { return map{"done": true}, nil }] *)
Definition noop : @ActionHandler stubRuntime :=
  fun _ _ n => ((Some {[ "done" := VBool true ]}, None), S n).

(** [func(ctx, inputs) { return map{"echo": inputs["message"]}, nil }] *)
Definition echo : @ActionHandler stubRuntime :=
  fun _ inputs n =>
    ((Some {[ "echo" := default VNil (inputs !! "message") ]}, None), S n).

(** A handler that fails on its first two invocations and succeeds from the
    third on. *)
Definition flaky : @ActionHandler stubRuntime :=
  fun _ _ n =>
    if (n <? 2)%nat then ((None, Some (errorString "transient")), S n)
    else ((Some {[ "done" := VBool true ]}, None), S n).

Definition stubEngine : @DefaultEngine stubRuntime :=
  RegisterAction
    (RegisterAction (RegisterAction NewEngine "noop" noop) "echo" echo)
    "flaky" flaky.

Definition mkStep (id action : string) : Step.t :=
  Step.mk id id "task" action ∅ ∅ "" [] "" 0 None.

Definition mkWorkflow (steps : list Step.t) : Workflow.t :=
  Workflow.mk "test" "1.0" "" ∅ steps None "".

(** ** What a caller can compare across runs

    The fields of a result other than its timestamps and duration. *)

Definition stepContent (r : StepResult.t)
  : string * StepStatus * option (gmap string Value) * option error :=
  (StepResult.StepID r, StepResult.Status r, StepResult.Output r,
   StepResult.Error r).

Definition workflowContent (r : WorkflowResult.t) :=
  (WorkflowResult.WorkflowName r, WorkflowResult.Status r,
   (fun o : option StepResult.t => stepContent <$> o)
     <$> (WorkflowResult.Steps r : list (option StepResult.t)),
   WorkflowResult.Error r).

(** The two closed forms a finished [StepResult] can take. *)
Definition stepFailed (id : string) (start fin : Time) (err : error)
  : StepResult.t :=
  StepResult.mk id StatusFailed None (Some err) start fin (Sub fin start).

Definition stepCompleted (id : string) (start fin : Time)
    (out : option (gmap string Value)) : StepResult.t :=
  StepResult.mk id StatusCompleted out None start fin (Sub fin start).

(** Field updates used to vary one field of a step at a time. *)
Definition withIf (step : Step.t) (cond : string) : Step.t :=
  Step.mk (Step.ID step) (Step.Name step) (Step.Typ step) (Step.Action step)
    (Step.With step) (Step.Env step) cond (Step.DependsOn step)
    (Step.Timeout step) (Step.Retries step) (Step.OnError step).

Definition withRetries (step : Step.t) (n : Z) : Step.t :=
  Step.mk (Step.ID step) (Step.Name step) (Step.Typ step) (Step.Action step)
    (Step.With step) (Step.Env step) (Step.If step) (Step.DependsOn step)
    (Step.Timeout step) n (Step.OnError step).

Definition withDependsOn (step : Step.t) (deps : list string) : Step.t :=
  Step.mk (Step.ID step) (Step.Name step) (Step.Typ step) (Step.Action step)
    (Step.With step) (Step.Env step) (Step.If step) deps
    (Step.Timeout step) (Step.Retries step) (Step.OnError step).

Definition withSteps (w : Workflow.t) (steps : list Step.t) : Workflow.t :=
  Workflow.mk (Workflow.Name w) (Workflow.Version w) (Workflow.Description w)
    (Workflow.Env w) steps (Workflow.OnError w) (Workflow.Timeout w).

(** The [dependsOn] relation of a workflow: [dependsOn w a b] when the
    step with id [a] lists [b], and a workflow is cyclic when some id
    reaches itself along it. *)
Definition dependsOn (w : Workflow.t) (a b : string) : Prop :=
  exists st, st ∈ Workflow.Steps w /\ Step.ID st = a /\ b ∈ Step.DependsOn st.

Definition cyclic (w : Workflow.t) : Prop :=
  exists a, tc (dependsOn w) a a.

Section Specs.
Context `{RT : Runtime}.

(** A step that ran to completion. *)
Definition stepDone (sr : StepResult.t) : Prop :=
  StepResult.Status sr = StatusCompleted /\ StepResult.Error sr = None.

(** A handler is deterministic when what it returns is a function of its
    inputs alone. *)
Definition deterministic (h : ActionHandler) : Prop :=
  forall ctx1 ctx2 inputs w1 w2,
    (h ctx1 inputs w1).1 = (h ctx2 inputs w2).1.

(** The state after a step: the clock was read twice, the handler left
    the world [w'], and [new] invocations were made. *)
Definition afterStep (s : RunState) (w' : World) (new : list Invocation)
  : RunState :=
  {| world := w'; ticks := S (S (ticks s)); calls := calls s ++ new |}.

(** The four ways through [ExecuteStep]: what it returns and the state it
    leaves on each. *)
Inductive StepRun (e : DefaultEngine) (ctx : Context) (step : Step.t)
    (inputs : gmap string Value) (s : RunState)
  : option StepResult.t -> option error -> RunState -> Prop :=
| RunBadTimeout perr :
    applyTimeout ctx (Step.Timeout step) = inr perr ->
    StepRun e ctx step inputs s
      (Some (stepFailed (Step.ID step) (Now (ticks s)) (Now (S (ticks s)))
               (Errorf_invalid_timeout perr)))
      (Some (Errorf_invalid_timeout perr))
      (afterStep s (world s) [])
| RunUnknownAction ctx' :
    applyTimeout ctx (Step.Timeout step) = inl ctx' ->
    actions e !! Step.Action step = None ->
    StepRun e ctx step inputs s
      (Some (stepFailed (Step.ID step) (Now (ticks s)) (Now (S (ticks s)))
               (Errorf_unknown_action (Step.Action step))))
      (Some (Errorf_unknown_action (Step.Action step)))
      (afterStep s (world s) [])
| RunHandlerFailed ctx' (h : ActionHandler) out err w' :
    applyTimeout ctx (Step.Timeout step) = inl ctx' ->
    actions e !! Step.Action step = Some h ->
    h ctx' (Step.With step ∪ inputs) (world s) = (out, Some err, w') ->
    StepRun e ctx step inputs s
      (Some (stepFailed (Step.ID step) (Now (ticks s)) (Now (S (ticks s)))
               err))
      (Some err)
      (afterStep s w' [(Step.Action step, Step.With step ∪ inputs)])
| RunHandlerOk ctx' (h : ActionHandler) out w' :
    applyTimeout ctx (Step.Timeout step) = inl ctx' ->
    actions e !! Step.Action step = Some h ->
    h ctx' (Step.With step ∪ inputs) (world s) = (out, None, w') ->
    StepRun e ctx step inputs s
      (Some (stepCompleted (Step.ID step) (Now (ticks s)) (Now (S (ticks s)))
               out))
      None
      (afterStep s w' [(Step.Action step, Step.With step ∪ inputs)]).

(** A run of the loop of [Execute] over [steps]: the StepResults appended,
    the error that stopped it if any, and the state it leaves. *)
Inductive StepsRun (e : DefaultEngine) (ctx : Context)
  : list Step.t -> RunState -> list StepResult.t -> option error ->
    RunState -> Prop :=
| StepsDone s :
    StepsRun e ctx [] s [] None s
| StepsStop step rest s sr err s1 :
    StepRun e ctx step ∅ s (Some sr) (Some err) s1 ->
    StepsRun e ctx (step :: rest) s [sr] (Some err) s1
| StepsNext step rest s sr s1 srs err s2 :
    StepRun e ctx step ∅ s (Some sr) None s1 ->
    StepsRun e ctx rest s1 srs err s2 ->
    StepsRun e ctx (step :: rest) s (sr :: srs) err s2.

(** The [WorkflowResult] that [Execute] hands back after such a run. *)
Definition finalResult (result : WorkflowResult.t)
    (srs : list StepResult.t) (err : option error) (s1 : RunState)
  : WorkflowResult.t :=
  WorkflowResult.mk (WorkflowResult.WorkflowName result)
    (match err with Some _ => StatusFailed | None => StatusCompleted end)
    (WorkflowResult.Steps result ++ (Some <$> srs))
    (WorkflowResult.StartTime result)
    (Now (ticks s1))
    (Sub (Now (ticks s1)) (WorkflowResult.StartTime result))
    (match err with Some _ => err | None => WorkflowResult.Error result end).

Definition tick (s : RunState) : RunState :=
  {| world := world s; ticks := S (ticks s); calls := calls s |}.

(** The [WorkflowResult] that [Execute] starts from. *)
Definition startResult (w : Workflow.t) (s : RunState) : WorkflowResult.t :=
  WorkflowResult.mk (Workflow.Name w) StatusRunning [] (Now (ticks s)) 0 0
    None.

(** Every registered handler is deterministic. *)
Definition deterministicEngine (e : DefaultEngine) : Prop :=
  forall name (h : ActionHandler),
    actions e !! name = Some h -> deterministic h.

End Specs.

(** ** Concrete steps and workflows *)

Definition withTimeout (step : Step.t) (timeout : string) : Step.t :=
  Step.mk (Step.ID step) (Step.Name step) (Step.Typ step) (Step.Action step)
    (Step.With step) (Step.Env step) (Step.If step) (Step.DependsOn step)
    timeout (Step.Retries step) (Step.OnError step).

Definition withWith (step : Step.t) (extra : gmap string Value) : Step.t :=
  Step.mk (Step.ID step) (Step.Name step) (Step.Typ step) (Step.Action step)
    extra (Step.Env step) (Step.If step) (Step.DependsOn step)
    (Step.Timeout step) (Step.Retries step) (Step.OnError step).

(** An engine whose handlers are all deterministic. *)
Definition pureEngine : @DefaultEngine stubRuntime :=
  RegisterAction (RegisterAction NewEngine "noop" noop) "echo" echo.

(** [A] depends on [B] and [B] depends on [A]. *)
Definition cycleAB : Workflow.t :=
  mkWorkflow [withDependsOn (mkStep "A" "noop") ["B"];
              withDependsOn (mkStep "B" "noop") ["A"]].

(** A step whose action is not registered, followed by one that is. *)
Definition failsFirst : Workflow.t :=
  mkWorkflow [mkStep "s1" "missing"; mkStep "s2" "noop"].

Definition twoNoops : Workflow.t :=
  mkWorkflow [mkStep "s1" "noop"; mkStep "s2" "noop"].

Definition badWorkflowTimeout : Workflow.t :=
  Workflow.mk "test" "1.0" "" ∅ [mkStep "s1" "noop"] None "soon".

(** A step that passes ["message"] itself, called with inputs that also
    carry ["message"]. *)
Definition echoStep : Step.t :=
  withWith (mkStep "s1" "echo") {[ "message" := VString "hello" ]}.

Definition callerInputs : gmap string Value :=
  {[ "message" := VString "caller"; "extra" := VInt 1 ]}.

(** A step guarded by a condition that is the literal [false]. *)
Definition guardedStep : Step.t := withIf (mkStep "s1" "noop") "false".

(** The flaky action under [retries: 2]. *)
Definition retriedStep : Step.t := withRetries (mkStep "s1" "flaky") 2.

(** An unregistered action under a timeout that does not parse. *)
Definition lostStep : Step.t := withTimeout (mkStep "s1" "missing") "soon".

(** The state a first run of [twoNoops] leaves behind, from which a second
    run starts. *)
Definition afterFirstRun : @RunState stubRuntime :=
  (Execute pureEngine background twoNoops initial).2.

(** The StepResults of what [Execute] returns; a nil WorkflowResult has
    none. *)
Definition resultSteps (r : option WorkflowResult.t)
  : list (option StepResult.t) :=
  from_option WorkflowResult.Steps [] r.

(** The step ids a WorkflowResult reports, in its order. *)
Definition reportedIDs (r : WorkflowResult.t) : list (option string) :=
  (fun o : option StepResult.t => StepResult.StepID <$> o)
    <$> (WorkflowResult.Steps r : list (option StepResult.t)).

(** ** The validator (engine.go) and its error (types.go) *)

Module ValidationError.
Record t := mk {
  Field : string;
  Message : string
}.

(** [fmt.Sprintf("%s: %s", e.Field, e.Message)] *)
Definition Error (e : t) : string := Field e ++ ": " ++ Message e.
End ValidationError.

(** [fmt.Sprintf("steps[%d].id", i)] and [fmt.Sprintf("steps[%d].name", i)] *)
Definition stepsField (i : nat) (suffix : string) : string :=
  "steps[" ++ pretty i ++ "]." ++ suffix.

(** The [for i, step := range w.Steps] loop of [Validate], from index [i]. *)
Fixpoint validateSteps (i : nat) (steps : list Step.t)
  : option ValidationError.t :=
  match steps with
  | [] => None
  | step :: rest =>
      if decide (Step.ID step = "")
      then Some (ValidationError.mk (stepsField i "id") "required")
      else if decide (Step.Name step = "")
      then Some (ValidationError.mk (stepsField i "name") "required")
      else validateSteps (S i) rest
  end.

Definition Validate (w : Workflow.t) : option ValidationError.t :=
  if decide (Workflow.Name w = "")
  then Some (ValidationError.mk "name" "required")
  else if decide (length (Workflow.Steps w) = 0%nat)
  then Some (ValidationError.mk "steps" "at least one step required")
  else validateSteps 0 (Workflow.Steps w).

(** A step the validator accepts. *)
Definition stepNamed (step : Step.t) : Prop :=
  Step.ID step <> "" /\ Step.Name step <> "".

(** ** Observations on a run *)

(** The invocation a step makes when [Execute] reaches its handler: the
    caller's inputs are nil there, so the handler gets [step.With]. *)
Definition invocationOf (step : Step.t) : string * gmap string Value :=
  (Step.Action step, Step.With step).

(** The clock readings stored in a WorkflowResult, in the order in which
    the code takes them. *)
Definition stepTimes (sr : option StepResult.t) : list Time :=
  match sr with
  | Some r => [StepResult.StartTime r; StepResult.EndTime r]
  | None => []
  end.

Definition timeline (r : WorkflowResult.t) : list Time :=
  WorkflowResult.StartTime r
    :: (concat (stepTimes <$> (WorkflowResult.Steps r
                               : list (option StepResult.t)))
        ++ [WorkflowResult.EndTime r])%list.

(** A StepResult whose duration is its end minus its start, and not
    negative. *)
Definition stepTimed (sr : option StepResult.t) : Prop :=
  match sr with
  | Some r =>
      StepResult.Duration r =
        Sub (StepResult.EndTime r) (StepResult.StartTime r) /\
      0 <= StepResult.Duration r
  | None => False
  end.

(** A clock that never runs backwards. *)
Definition monotoneClock `{RT : Runtime} : Prop :=
  forall m n : nat, (m <= n)%nat -> Now m <= Now n.

(** A workflow with a name and no step. *)
Definition noSteps : Workflow.t := mkWorkflow [].

(** A step that passes validation, and one without a name. *)
Definition namedStep : Step.t := mkStep "s1" "noop".

Definition namelessStep : Step.t :=
  Step.mk "s2" "" "task" "noop" ∅ ∅ "" [] "" 0 None.

(** ** The in-memory store (package [memory])

    A [*Memory] is a location of the heap; Go pointers other than nil
    always point to an object, so the heap is a total function and the
    pointers handed to the store are taken to be non-nil.  [Save] writes
    through the pointer it is given and keeps that pointer, so the heap is
    part of the state.  A slice is an [option]: [None] is the nil slice,
    [Some []] an empty slice that is not nil.  A float64 is carried as its
    bit pattern; the store never computes with one.  The context argument
    and the mutex have no part in what the methods return. *)

Definition loc := positive.

Definition MemoryType := string.

Module Memory.
Record t := mk {
  ID : string;
  Typ : MemoryType;
  Content : string;
  Embedding : option (list Z);
  Metadata : gmap string Value;
  CreatedAt : Time;
  UpdatedAt : Time;
  Score : Z
}.
End Memory.

Module Filter.
Record t := mk {
  Typ : MemoryType;
  Since : option Time;
  Until : option Time;
  Limit : Z;
  Offset : Z;
  Metadata : gmap string Value;
  OrderBy : string;
  OrderDesc : bool
}.
End Filter.

(** What the store takes from its environment: the clock, and
    [uuid.New().String()], which never is the empty string. *)
Class StoreHost := {
  hostNow : nat -> Time;
  uuid_New : nat -> string;
  uuid_New_nonempty : forall n, uuid_New n <> ""
}.

Record MemState := {
  heap : loc -> Memory.t;
  memories : gmap string loc;
  clockReads : nat;
  uuidDraws : nat
}.

(** [fmt.Errorf("memory not found: %s", id)] *)
Definition Errorf_not_found (id : string) : error :=
  errorString ("memory not found: " ++ id).

(** [NewInMemoryStore()], in a program whose heap is [h]. *)
Definition NewInMemoryStore (h : loc -> Memory.t) : MemState :=
  {| heap := h; memories := ∅; clockReads := 0; uuidDraws := 0 |}.

Section Store.
Context `{SH : StoreHost}.

Definition Save (m : loc) (st : MemState) : option error * MemState :=
  let mem := heap st m in
  let (id, draws) :=
    if decide (Memory.ID mem = "")
    then (uuid_New (uuidDraws st), S (uuidDraws st))
    else (Memory.ID mem, uuidDraws st) in
  let now := hostNow (clockReads st) in
  let created :=
    if (Memory.CreatedAt mem =? 0)%Z then now
    else Memory.CreatedAt mem in
  let mem' :=
    Memory.mk id (Memory.Typ mem) (Memory.Content mem)
      (Memory.Embedding mem) (Memory.Metadata mem) created now
      (Memory.Score mem) in
  (None,
   {| heap := fun p => if decide (p = m) then mem' else heap st p;
      memories := <[id := m]> (memories st);
      clockReads := S (clockReads st);
      uuidDraws := draws |}).

Definition Get (id : string) (st : MemState) : option loc * option error :=
  match memories st !! id with
  | Some m => (Some m, None)
  | None => (None, Some (Errorf_not_found id))
  end.

Definition Delete (id : string) (st : MemState) : option error * MemState :=
  match memories st !! id with
  | None => (Some (Errorf_not_found id), st)
  | Some _ =>
      (None,
       {| heap := heap st;
          memories := delete id (memories st);
          clockReads := clockReads st;
          uuidDraws := uuidDraws st |})
  end.

Definition Clear (st : MemState) : option error * MemState :=
  (None,
   {| heap := heap st;
      memories := ∅;
      clockReads := clockReads st;
      uuidDraws := uuidDraws st |}).

End Store.

(** The test of the loop of [List]: does memory [m] pass the filter? *)
Definition passes (flt : option Filter.t) (m : Memory.t) : bool :=
  match flt with
  | None => true
  | Some f =>
      negb (bool_decide (Filter.Typ f <> "")
            && bool_decide (Memory.Typ m <> Filter.Typ f))
      && negb (match Filter.Since f with
               | Some since => (Memory.CreatedAt m <? since)%Z
               | None => false
               end)
      && negb (match Filter.Until f with
               | Some until => (until <? Memory.CreatedAt m)%Z
               | None => false
               end)
  end.

(** The elements of a slice, nil or not. *)
Definition elems (sl : option (list loc)) : list loc := default [] sl.

(** [if filter.Limit > 0 && filter.Limit < len(result)
       { result = result[:filter.Limit] }] *)
Definition applyLimit (f : Filter.t) (result : option (list loc))
  : option (list loc) :=
  if (0 <? Filter.Limit f)%Z
     && (Filter.Limit f <? Z.of_nat (length (elems result)))%Z
  then Some (take (Z.to_nat (Filter.Limit f)) (elems result))
  else result.

(** The [if filter != nil { ... }] block of [List] that applies offset and
    limit to the sorted slice. *)
Definition page (flt : option Filter.t) (result : option (list loc))
  : option (list loc) :=
  match flt with
  | None => result
  | Some f =>
      let len := Z.of_nat (length (elems result)) in
      if (0 <? Filter.Offset f)%Z && (Filter.Offset f <? len)%Z
      then applyLimit f
             (Some (drop (Z.to_nat (Filter.Offset f)) (elems result)))
      else if (len <=? Filter.Offset f)%Z then Some []
      else applyLimit f result
  end.

(** Newest first: what [sort.Slice] with [CreatedAt.After] as its order
    leaves; memories created at the same instant may come in any order. *)
Definition newestFirst (h : loc -> Memory.t) (l : list loc) : Prop :=
  StronglySorted
    (fun a b => (Memory.CreatedAt (h b) <= Memory.CreatedAt (h a))%Z) l.

(** [List].  The [range] over the map visits its entries in an order the
    language leaves open, and [sort.Slice] is not stable, so the model
    says which results [List] can return: the pointers that pass the
    filter, in some newest-first order (a nil slice when there is none),
    cut by offset and limit.  The error [List] returns is always nil. *)
Inductive Listed (st : MemState) (flt : option Filter.t)
  : option (list loc) -> Prop :=
| ListedAs visited sorted :
    visited ≡ₚ (map_to_list (memories st)).*2 ->
    sorted ≡ₚ filter (fun p => passes flt (heap st p) = true) visited ->
    newestFirst (heap st) sorted ->
    Listed st flt
      (page flt (match sorted with [] => None | _ => Some sorted end)).

(** Every key leads to a memory that carries the key as its ID, and no key
    is empty. *)
Definition storeConsistent (st : MemState) : Prop :=
  forall id p,
    memories st !! id = Some p ->
    Memory.ID (heap st p) = id /\ id <> "".

(** Calls a client can make on the store, and a sequence of them. *)
Inductive StoreOp :=
| OpSave (m : loc)
| OpDelete (id : string)
| OpClear.

Definition runOp `{SH : StoreHost} (op : StoreOp) (st : MemState)
  : MemState :=
  match op with
  | OpSave m => (Save m st).2
  | OpDelete id => (Delete id st).2
  | OpClear => (Clear st).2
  end.

Definition runOps `{SH : StoreHost} (ops : list StoreOp) (st : MemState)
  : MemState :=
  foldl (fun st op => runOp op st) st ops.

(** A host for concrete runs: the clock advances one millisecond per
    reading and never shows the zero instant; identifiers are numbered. *)
Definition stubUUID_nonempty (n : nat) : "uuid-" ++ pretty n <> "" :=
  fun H => eq_ind ("uuid-" ++ pretty n)
             (fun x => match x with EmptyString => False | _ => True end)
             I "" H.

Definition stubHost : StoreHost := {|
  hostNow := fun n => (Z.of_nat n + 1) * 1000000;
  uuid_New := fun n => "uuid-" ++ pretty n;
  uuid_New_nonempty := stubUUID_nonempty
|}.

(** A heap in which every memory is the zero value but for its content. *)
Definition blankHeap : loc -> Memory.t :=
  fun p => Memory.mk "" "" ("memory " ++ pretty (Pos.to_nat p)) None ∅ 0 0 0.

Definition typeFilter (ty : MemoryType) : Filter.t :=
  Filter.mk ty None None 0 0 ∅ "" false.

Definition pageFilter (offset limit : Z) : Filter.t :=
  Filter.mk "" None None limit offset ∅ "" false.

(** The pointers that pass a filter among those a store holds, in the order
    in which [map_to_list] enumerates the map. *)
Definition matching (st : MemState) (flt : option Filter.t) : list loc :=
  filter (fun p => passes flt (heap st p) = true)
         (map_to_list (memories st)).*2.

(** A store into which two memories were saved, one after the other. *)
Definition savedTwo : MemState :=
  @runOps stubHost [OpSave 1%positive; OpSave 2%positive]
    (NewInMemoryStore blankHeap).

(** ** Properties *)

Open Scope list_scope.

(** *** The duration parser never runs out of rounds *)

Lemma leadingInt_length s : forall x v r,
  time.leadingInt x s = Some (v, r) ->
  (String.length r <= String.length s)%nat.
Proof.
  induction s as [|c s IH]; intros x v r H; cbn in H.
  - by injection H as _ <-.
  - destruct (time.isDigit c).
    + destruct (2 ^ 63 / 10 <? x)%Z; [done|].
      destruct (2 ^ 63 <? x * 10 + time.digitVal c)%Z; [done|].
      apply IH in H. cbn. lia.
    + by injection H as _ <-.
Qed.

Lemma leadingFraction_length s : forall x scale overflow,
  (String.length (time.leadingFraction x scale overflow s).2
   <= String.length s)%nat.
Proof.
  induction s as [|c s IH]; intros x scale overflow; cbn; [done|].
  destruct (time.isDigit c); [|done].
  destruct overflow; [by apply Nat.le_le_succ_r|].
  destruct ((2 ^ 63 - 1) / 10 <? x)%Z; [by apply Nat.le_le_succ_r|].
  destruct (2 ^ 63 <? x * 10 + time.digitVal c)%Z;
    by apply Nat.le_le_succ_r.
Qed.

Lemma splitUnit_length s :
  (String.length (time.splitUnit s).1 + String.length (time.splitUnit s).2
   = String.length s)%nat.
Proof.
  induction s as [|c s IH]; cbn; [done|].
  destruct (time.isDot c || time.isDigit c); cbn; [done|].
  destruct (time.splitUnit s) as [u r]. cbn in *. lia.
Qed.

Lemma group_consumes orig s v rest :
  time.group orig s = inl (v, rest) ->
  (String.length rest < String.length s)%nat.
Proof.
  unfold time.group. destruct s as [|c s]; [done|].
  destruct (negb (time.isDot c || time.isDigit c)); [done|].
  destruct (time.leadingInt 0 (String c s)) as [[v0 s1]|] eqn:Hint; [|done].
  apply leadingInt_length in Hint.
  assert (Hfrac : exists f scale s2 post,
    match s1 with
    | String c1 rest1 =>
        if time.isDot c1 then
          let '(f, scale, s2) := time.leadingFraction 0 1 false rest1 in
          (f, scale, s2,
           negb (String.length rest1 =? String.length s2)%nat)
        else (0, 1, s1, false)
    | EmptyString => (0, 1, s1, false)
    end = (f, scale, s2, post) /\
    (String.length s2 <= String.length s1)%nat).
  { destruct s1 as [|c1 rest1]; [by eexists _, _, _, _|].
    destruct (time.isDot c1); [|by eexists _, _, _, _].
    pose proof (leadingFraction_length rest1 0 1 false) as Hlen.
    destruct (time.leadingFraction 0 1 false rest1) as [[f' sc'] s2'].
    eexists _, _, _, _. split; [done|]. cbn in *. lia. }
  destruct Hfrac as (f & scale & s2 & post & -> & Hm).
  destruct (negb _ && negb post); [done|].
  pose proof (splitUnit_length s2) as Hsplit.
  destruct (time.splitUnit s2) as [u s3]. cbn in Hsplit.
  case_decide as Hu; [done|].
  destruct (time.unitMap u) as [unit|]; [|done].
  destruct (2 ^ 63 / unit <? v0)%Z; [done|].
  destruct (2 ^ 63 <? _)%Z; [done|].
  intros [= _ <-].
  destruct u as [|cu u]; [done|]. cbn in *. lia.
Qed.

Lemma groups_fuel orig : forall fuel fuel' d s,
  (String.length s <= fuel)%nat ->
  (String.length s <= fuel')%nat ->
  time.groups fuel orig d s = time.groups fuel' orig d s.
Proof.
  induction fuel as [|fuel IH]; intros fuel' d s H1 H2.
  - destruct s; [by destruct fuel'|cbn in H1; lia].
  - destruct s as [|c s]; [by destruct fuel'|].
    destruct fuel' as [|fuel']; [cbn in H2; lia|].
    cbn [time.groups].
    destruct (time.group orig (String c s)) as [[v rest]|err] eqn:Hg;
      [|done].
    apply group_consumes in Hg.
    destruct (2 ^ 63 <? d + v)%Z; [done|].
    apply IH; cbn in *; lia.
Qed.

Section Properties.
Context `{RT : Runtime}.

(** *** The merged inputs *)

Lemma copyInto_union (src dst : gmap string Value) :
  copyInto src dst = src ∪ dst.
Proof.
  unfold copyInto.
  induction src as [|k v src Hk Hfold IH] using map_first_key_ind.
  - by rewrite map_fold_empty, (left_id_L ∅ (∪)).
  - rewrite map_fold_insert_first_key by done.
    rewrite IH. by rewrite insert_union_l.
Qed.

Lemma allInputs_union (inputs extra : gmap string Value) :
  copyInto extra (copyInto inputs ∅) = extra ∪ inputs.
Proof.
  rewrite !copyInto_union. by rewrite (right_id_L ∅ (∪)).
Qed.

(** *** [ExecuteStep], path by path *)

(** *** [ExecuteStep], path by path *)

Lemma ExecuteStep_bad_timeout e ctx step inputs s perr :
  applyTimeout ctx (Step.Timeout step) = inr perr ->
  ExecuteStep e ctx step inputs s =
    (Some (stepFailed (Step.ID step) (Now (ticks s)) (Now (S (ticks s)))
             (Errorf_invalid_timeout perr)),
     Some (Errorf_invalid_timeout perr),
     afterStep s (world s) []).
Proof.
  intros Ht. unfold ExecuteStep. rewrite Ht.
  unfold bind, time_Now, ret, afterStep. cbn. by rewrite app_nil_r.
Qed.

Lemma ExecuteStep_unknown_action e ctx step inputs s ctx' :
  applyTimeout ctx (Step.Timeout step) = inl ctx' ->
  actions e !! Step.Action step = None ->
  ExecuteStep e ctx step inputs s =
    (Some (stepFailed (Step.ID step) (Now (ticks s)) (Now (S (ticks s)))
             (Errorf_unknown_action (Step.Action step))),
     Some (Errorf_unknown_action (Step.Action step)),
     afterStep s (world s) []).
Proof.
  intros Ht Ha. unfold ExecuteStep. rewrite Ht, Ha.
  unfold bind, time_Now, ret, afterStep. cbn. by rewrite app_nil_r.
Qed.

Lemma ExecuteStep_handler_failed e ctx step inputs s ctx'
    (h : ActionHandler) out err w' :
  applyTimeout ctx (Step.Timeout step) = inl ctx' ->
  actions e !! Step.Action step = Some h ->
  h ctx' (Step.With step ∪ inputs) (world s) = (out, Some err, w') ->
  ExecuteStep e ctx step inputs s =
    (Some (stepFailed (Step.ID step) (Now (ticks s)) (Now (S (ticks s))) err),
     Some err,
     afterStep s w' [(Step.Action step, Step.With step ∪ inputs)]).
Proof.
  intros Ht Ha Hh. unfold ExecuteStep. rewrite Ht, Ha, allInputs_union.
  unfold bind, time_Now, ret, invoke, afterStep. cbn. by rewrite Hh.
Qed.

Lemma ExecuteStep_handler_ok e ctx step inputs s ctx'
    (h : ActionHandler) out w' :
  applyTimeout ctx (Step.Timeout step) = inl ctx' ->
  actions e !! Step.Action step = Some h ->
  h ctx' (Step.With step ∪ inputs) (world s) = (out, None, w') ->
  ExecuteStep e ctx step inputs s =
    (Some (stepCompleted (Step.ID step) (Now (ticks s)) (Now (S (ticks s)))
             out),
     None,
     afterStep s w' [(Step.Action step, Step.With step ∪ inputs)]).
Proof.
  intros Ht Ha Hh. unfold ExecuteStep. rewrite Ht, Ha, allInputs_union.
  unfold bind, time_Now, ret, invoke, afterStep. cbn. by rewrite Hh.
Qed.

Lemma ExecuteStep_run e ctx step inputs s :
  exists r err s',
    ExecuteStep e ctx step inputs s = (r, err, s') /\
    StepRun e ctx step inputs s r err s'.
Proof.
  destruct (applyTimeout ctx (Step.Timeout step)) as [ctx'|perr] eqn:Ht.
  - destruct (actions e !! Step.Action step) as [h|] eqn:Ha.
    + destruct (h ctx' (Step.With step ∪ inputs) (world s))
        as [[out [err|]] w'] eqn:Hh.
      * eexists _, _, _. split;
          [by eapply ExecuteStep_handler_failed | by eapply RunHandlerFailed].
      * eexists _, _, _. split;
          [by eapply ExecuteStep_handler_ok | by eapply RunHandlerOk].
    + eexists _, _, _. split;
        [by eapply ExecuteStep_unknown_action | by eapply RunUnknownAction].
  - eexists _, _, _. split;
      [by eapply ExecuteStep_bad_timeout | by eapply RunBadTimeout].
Qed.

Lemma StepRun_calls e ctx step inputs s r err s' :
  StepRun e ctx step inputs s r err s' ->
  calls s' = calls s \/
  calls s' = calls s ++ [(Step.Action step, Step.With step ∪ inputs)].
Proof. destruct 1; cbn; rewrite ?app_nil_r; auto. Qed.

Lemma merged_lookup (extra inputs : gmap string Value) (k : string) :
  (extra ∪ inputs) !! k =
    match extra !! k with
    | Some v => Some v
    | None => inputs !! k
    end.
Proof.
  rewrite lookup_union. by destruct (extra !! k), (inputs !! k).
Qed.

(** *** Claims about [ExecuteStep] *)

(** C10.  [ExecuteStep] always returns a non-nil StepResult; its StepID is
    the step's ID; its Status is Completed or Failed; the returned error is
    non-nil exactly when the Status is Failed (and is the result's own
    Error); the Output is non-nil only when the Status is Completed. *)
Theorem ExecuteStep_result_shape e ctx step inputs s :
  exists r,
    (ExecuteStep e ctx step inputs s).1.1 = Some r /\
    StepResult.StepID r = Step.ID step /\
    (StepResult.Status r = StatusCompleted \/
     StepResult.Status r = StatusFailed) /\
    (is_Some (ExecuteStep e ctx step inputs s).1.2 <->
     StepResult.Status r = StatusFailed) /\
    StepResult.Error r = (ExecuteStep e ctx step inputs s).1.2 /\
    (is_Some (StepResult.Output r) ->
     StepResult.Status r = StatusCompleted).
Proof.
  destruct (ExecuteStep_run e ctx step inputs s)
    as (r & err & s' & -> & Hrun).
  destruct Hrun; cbn; eexists; (split; [reflexivity|]); cbn;
    repeat split; auto; try (intros [? ?]; done); try done;
    try (intros _; by eexists).
Qed.

(** C8.  When the step's action is invoked (its timeout is acceptable and
    its action resolves to a handler [h]), the handler is applied to the
    caller's inputs merged with [step.With]: a key of [step.With] carries
    the [step.With] value, any other key the caller's value.  That one
    application is the only invocation, and its outcome is what
    [ExecuteStep] returns. *)
Theorem ExecuteStep_merges_inputs e ctx step inputs s ctx'
    (h : ActionHandler) :
  applyTimeout ctx (Step.Timeout step) = inl ctx' ->
  actions e !! Step.Action step = Some h ->
  exists m : gmap string Value,
    (forall k, m !! k = match Step.With step !! k with
                        | Some v => Some v
                        | None => inputs !! k
                        end) /\
    calls (ExecuteStep e ctx step inputs s).2 =
      calls s ++ [(Step.Action step, m)] /\
    world (ExecuteStep e ctx step inputs s).2 = (h ctx' m (world s)).2 /\
    (ExecuteStep e ctx step inputs s).1.2 = (h ctx' m (world s)).1.2 /\
    StepResult.Output <$> (ExecuteStep e ctx step inputs s).1.1 =
      Some (match (h ctx' m (world s)).1.2 with
            | Some _ => None
            | None => (h ctx' m (world s)).1.1
            end).
Proof.
  intros Ht Ha. exists (Step.With step ∪ inputs).
  split; [apply merged_lookup|].
  destruct (h ctx' (Step.With step ∪ inputs) (world s))
    as [[out [err|]] w'] eqn:Hh.
  - by rewrite (ExecuteStep_handler_failed _ _ _ _ _ _ _ _ _ _ Ht Ha Hh).
  - by rewrite (ExecuteStep_handler_ok _ _ _ _ _ _ _ _ _ Ht Ha Hh).
Qed.

(** C5, as the code has it.  For a step whose action does not resolve,
    [ExecuteStep] returns a Failed StepResult and invokes no handler (so
    nothing is retried).  The error is the unknown-action error when the
    step's timeout is empty or parses; a timeout that does not parse is
    reported first, as an invalid-timeout error. *)
Theorem ExecuteStep_unresolved_action e ctx step inputs s :
  actions e !! Step.Action step = None ->
  exists r err,
    (ExecuteStep e ctx step inputs s).1 = (Some r, Some err) /\
    StepResult.Status r = StatusFailed /\
    StepResult.Error r = Some err /\
    calls (ExecuteStep e ctx step inputs s).2 = calls s /\
    world (ExecuteStep e ctx step inputs s).2 = world s /\
    err = match applyTimeout ctx (Step.Timeout step) with
          | inl _ => Errorf_unknown_action (Step.Action step)
          | inr perr => Errorf_invalid_timeout perr
          end.
Proof.
  intros Ha.
  destruct (applyTimeout ctx (Step.Timeout step)) as [ctx'|perr] eqn:Ht.
  - rewrite (ExecuteStep_unknown_action _ _ _ _ _ _ Ht Ha). cbn.
    eexists _, _. rewrite app_nil_r. repeat split.
  - rewrite (ExecuteStep_bad_timeout _ _ _ _ _ _ Ht). cbn.
    eexists _, _. rewrite app_nil_r. repeat split.
Qed.

(** C4, as the code has it.  [ExecuteStep] does not look at
    [step.Retries]: whatever its value the run is the same, the handler is
    invoked at most once, and the StepResult carries the outcome of that
    single attempt: Failed with the handler's error if it returned one,
    Completed with its output otherwise. *)
Theorem ExecuteStep_single_attempt e ctx step inputs s n :
  ExecuteStep e ctx (withRetries step n) inputs s =
    ExecuteStep e ctx step inputs s /\
  exists new,
    calls (ExecuteStep e ctx step inputs s).2 = calls s ++ new /\
    (length new <= 1)%nat /\
    match new with
    | [] =>
        StepResult.Status <$> (ExecuteStep e ctx step inputs s).1.1 =
          Some StatusFailed
    | (name, m) :: _ =>
        exists (h : ActionHandler) ctx',
          actions e !! name = Some h /\
          (ExecuteStep e ctx step inputs s).1.2 =
            (h ctx' m (world s)).1.2 /\
          stepContent <$> (ExecuteStep e ctx step inputs s).1.1 =
            Some (match (h ctx' m (world s)).1 with
                  | (_, Some err) =>
                      (Step.ID step, StatusFailed, None, Some err)
                  | (out, None) =>
                      (Step.ID step, StatusCompleted, out, None)
                  end)
    end.
Proof.
  split; [reflexivity|].
  destruct (ExecuteStep_run e ctx step inputs s)
    as (r & err & s' & -> & Hrun).
  destruct Hrun as [perr Ht|ctx' Ht Ha|ctx' h out er w' Ht Ha Hh
                   |ctx' h out w' Ht Ha Hh]; cbn.
  - exists []. split_and!; [done | cbn; lia | done].
  - exists []. split_and!; [done | cbn; lia | done].
  - eexists [_]. split_and!; [done | cbn; lia |].
    exists h, ctx'. by rewrite Hh.
  - eexists [_]. split_and!; [done | cbn; lia |].
    exists h, ctx'. by rewrite Hh.
Qed.

(** C3, as the code has it.  [ExecuteStep] does not look at [step.If]:
    whatever the condition says the run is the same, the status is never
    Skipped, and the handler is invoked exactly when the timeout is
    acceptable and the action resolves.  So a step with an absent or empty
    [if] is eligible to execute, and so is every other step. *)
Theorem ExecuteStep_ignores_condition e ctx step inputs s cond :
  ExecuteStep e ctx (withIf step cond) inputs s =
    ExecuteStep e ctx step inputs s /\
  StepResult.Status <$> (ExecuteStep e ctx step inputs s).1.1 <>
    Some StatusSkipped /\
  (calls (ExecuteStep e ctx step inputs s).2 =
     calls s ++ [(Step.Action step, Step.With step ∪ inputs)] <->
   (exists ctx', applyTimeout ctx (Step.Timeout step) = inl ctx') /\
   is_Some (actions e !! Step.Action step)).
Proof.
  split; [reflexivity|].
  destruct (ExecuteStep_run e ctx step inputs s)
    as (r & err & s' & -> & Hrun).
  assert (Hnil : forall (l : list Invocation) x, l ++ [] <> l ++ [x]).
  { intros l x Hl. by apply app_inv_head in Hl. }
  destruct Hrun as [perr Ht|ctx' Ht Ha|ctx' h out er w' Ht Ha Hh
                   |ctx' h out w' Ht Ha Hh]; cbn; (split; [done|]).
  - split; [intros Hc; by apply Hnil in Hc|].
    intros [[c Hc] _]. congruence.
  - split; [intros Hc; by apply Hnil in Hc|].
    intros [_ [x Hx]]. congruence.
  - split; [|done]. intros _. split; by eexists.
  - split; [|done]. intros _. split; by eexists.
Qed.

(** *** The loop of [Execute] *)

Lemma StepRun_result e ctx step inputs s r err s' :
  StepRun e ctx step inputs s r err s' ->
  exists sr,
    r = Some sr /\
    StepResult.StepID sr = Step.ID step /\
    StepResult.Error sr = err /\
    StepResult.Status sr =
      match err with Some _ => StatusFailed | None => StatusCompleted end.
Proof. destruct 1; eexists; by split_and!. Qed.

Lemma StepRun_some e ctx step inputs s sr err s' :
  StepRun e ctx step inputs s (Some sr) err s' ->
  StepResult.StepID sr = Step.ID step /\
  StepResult.Error sr = err /\
  StepResult.Status sr =
    match err with Some _ => StatusFailed | None => StatusCompleted end.
Proof.
  intros H. destruct (StepRun_result _ _ _ _ _ _ _ _ H) as (x & [= <-] & ?).
  done.
Qed.

Lemma runSteps_run e ctx steps : forall result s,
  exists srs err s1,
    StepsRun e ctx steps s srs err s1 /\
    runSteps e ctx steps result s =
      (Some (finalResult result srs err s1), err, tick s1).
Proof.
  induction steps as [|step rest IH]; intros result s.
  - exists [], None, s. split; [constructor|].
    unfold finalResult. cbn. by rewrite app_nil_r.
  - destruct (ExecuteStep_run e ctx step ∅ s)
      as (r & err & s1 & Heq & Hrun).
    destruct (StepRun_result _ _ _ _ _ _ _ _ Hrun) as (sr & -> & _).
    cbn [runSteps]. unfold bind at 1. rewrite Heq.
    destruct err as [er|].
    + exists [sr], (Some er), s1. split; [by constructor|]. done.
    + destruct (IH (WorkflowResult.appendStep result (Some sr)) s1)
        as (srs & err & s2 & Hsteps & ->).
      exists (sr :: srs), err, s2. split; [by econstructor|].
      unfold finalResult. cbn. by rewrite <- app_assoc.
Qed.

Lemma Execute_bad_timeout e ctx w s perr :
  applyTimeout ctx (Workflow.Timeout w) = inr perr ->
  Execute e ctx w s = (None, Some (Errorf_invalid_timeout perr), tick s).
Proof. intros Ht. unfold Execute. by rewrite Ht. Qed.

Lemma Execute_run e ctx w s ctx' :
  applyTimeout ctx (Workflow.Timeout w) = inl ctx' ->
  exists srs err s1,
    StepsRun e ctx' (Workflow.Steps w) (tick s) srs err s1 /\
    Execute e ctx w s =
      (Some (finalResult (startResult w s) srs err s1), err, tick s1).
Proof.
  intros Ht. unfold Execute. rewrite Ht.
  destruct (runSteps_run e ctx' (Workflow.Steps w) (startResult w s) (tick s))
    as (srs & err & s1 & Hsteps & Heq).
  exists srs, err, s1. split; [done|]. unfold bind, time_Now. exact Heq.
Qed.

(** StepResults come out in the order of the steps. *)
Lemma StepsRun_ids e ctx steps s srs err s1 :
  StepsRun e ctx steps s srs err s1 ->
  StepResult.StepID <$> srs = take (length srs) (Step.ID <$> steps).
Proof.
  induction 1 as [s|step rest s sr err s1 Hrun
                 |step rest s sr s1 srs err s2 Hrun Hsteps IH].
  - done.
  - destruct (StepRun_some _ _ _ _ _ _ _ _ Hrun) as (Hid & _).
    cbn. by rewrite Hid.
  - destruct (StepRun_some _ _ _ _ _ _ _ _ Hrun) as (Hid & _).
    cbn. by rewrite Hid, IH.
Qed.

(** All StepResults but the last are Completed; the last one is Failed
    exactly when the loop stopped with an error, which it then carries. *)
Lemma StepsRun_shape e ctx steps s srs err s1 :
  StepsRun e ctx steps s srs err s1 ->
  match err with
  | None => length srs = length steps /\ Forall stepDone srs
  | Some er =>
      exists done last,
        srs = done ++ [last] /\ Forall stepDone done /\
        (length srs <= length steps)%nat /\
        StepResult.Status last = StatusFailed /\
        StepResult.Error last = Some er
  end.
Proof.
  induction 1 as [s|step rest s sr err s1 Hrun
                 |step rest s sr s1 srs err s2 Hrun Hsteps IH].
  - by split.
  - destruct (StepRun_some _ _ _ _ _ _ _ _ Hrun) as (_ & Herr & Hst).
    exists [], sr. split_and!; [done | constructor | cbn; lia | done | done].
  - destruct (StepRun_some _ _ _ _ _ _ _ _ Hrun) as (_ & Herr & Hst).
    destruct err as [er|].
    + destruct IH as (done & last & -> & Hdone & Hlen & Hlast & Herr').
      exists (sr :: done), last.
      split_and!; [done | by constructor | cbn in *; lia | done | done].
    + destruct IH as [Hlen Hall]. split; [cbn; lia | by constructor].
Qed.

(** *** Determinism of the content *)

Lemma applyTimeout_agree ctx1 ctx2 timeout :
  match applyTimeout ctx1 timeout, applyTimeout ctx2 timeout with
  | inl _, inl _ => True
  | inr e1, inr e2 => e1 = e2
  | _, _ => False
  end.
Proof.
  unfold applyTimeout. case_decide; [done|].
  by destruct (ParseDuration timeout).
Qed.

Lemma ExecuteStep_content_deterministic e step inputs ctx1 ctx2 s1 s2 :
  deterministicEngine e ->
  stepContent <$> (ExecuteStep e ctx1 step inputs s1).1.1 =
    stepContent <$> (ExecuteStep e ctx2 step inputs s2).1.1 /\
  (ExecuteStep e ctx1 step inputs s1).1.2 =
    (ExecuteStep e ctx2 step inputs s2).1.2.
Proof.
  intros Hdet.
  pose proof (applyTimeout_agree ctx1 ctx2 (Step.Timeout step)) as Hag.
  destruct (applyTimeout ctx1 (Step.Timeout step)) as [c1|p1] eqn:Ht1,
           (applyTimeout ctx2 (Step.Timeout step)) as [c2|p2] eqn:Ht2;
    try done.
  - destruct (actions e !! Step.Action step) as [h|] eqn:Ha.
    + pose proof (Hdet _ _ Ha c1 c2 (Step.With step ∪ inputs)
                    (world s1) (world s2)) as Hsame.
      destruct (h c1 (Step.With step ∪ inputs) (world s1))
        as [[out1 [er1|]] w1] eqn:Hh1,
               (h c2 (Step.With step ∪ inputs) (world s2))
        as [[out2 [er2|]] w2] eqn:Hh2; cbn in Hsame; simplify_eq.
      * rewrite (ExecuteStep_handler_failed _ _ _ _ _ _ _ _ _ _ Ht1 Ha Hh1).
        by rewrite (ExecuteStep_handler_failed _ _ _ _ _ _ _ _ _ _ Ht2 Ha Hh2).
      * rewrite (ExecuteStep_handler_ok _ _ _ _ _ _ _ _ _ Ht1 Ha Hh1).
        by rewrite (ExecuteStep_handler_ok _ _ _ _ _ _ _ _ _ Ht2 Ha Hh2).
    + rewrite (ExecuteStep_unknown_action _ _ _ _ _ _ Ht1 Ha).
      by rewrite (ExecuteStep_unknown_action _ _ _ _ _ _ Ht2 Ha).
  - subst p2. rewrite (ExecuteStep_bad_timeout _ _ _ _ _ _ Ht1).
    by rewrite (ExecuteStep_bad_timeout _ _ _ _ _ _ Ht2).
Qed.

Lemma workflowContent_appendStep r1 r2 (sr1 sr2 : option StepResult.t) :
  workflowContent r1 = workflowContent r2 ->
  stepContent <$> sr1 = stepContent <$> sr2 ->
  workflowContent (WorkflowResult.appendStep r1 sr1) =
    workflowContent (WorkflowResult.appendStep r2 sr2).
Proof.
  unfold workflowContent. intros [= Hn Hs Hl He] Hsr. cbn.
  rewrite !fmap_app. cbn. by rewrite Hn, Hs, Hl, He, Hsr.
Qed.

Lemma runSteps_content_deterministic e steps :
  deterministicEngine e ->
  forall ctx1 ctx2 r1 r2 s1 s2,
    workflowContent r1 = workflowContent r2 ->
    workflowContent <$> (runSteps e ctx1 steps r1 s1).1.1 =
      workflowContent <$> (runSteps e ctx2 steps r2 s2).1.1 /\
    (runSteps e ctx1 steps r1 s1).1.2 = (runSteps e ctx2 steps r2 s2).1.2.
Proof.
  intros Hdet. induction steps as [|step rest IH];
    intros ctx1 ctx2 r1 r2 s1 s2 Hr.
  - cbn. split; [|done]. f_equal.
    unfold workflowContent in *. cbn. by injection Hr as -> _ -> ->.
  - cbn [runSteps]. unfold bind at 1 3 5 7.
    destruct (ExecuteStep_content_deterministic e step ∅ ctx1 ctx2 s1 s2 Hdet)
      as [Hc He].
    destruct (ExecuteStep e ctx1 step ∅ s1) as [[sr1 er1] s1'],
             (ExecuteStep e ctx2 step ∅ s2) as [[sr2 er2] s2'].
    cbn in Hc, He. subst er2.
    pose proof (workflowContent_appendStep _ _ _ _ Hr Hc) as Happ.
    destruct er1 as [er|]; [|by apply IH].
    cbn. split; [|done]. f_equal.
    unfold workflowContent in *. cbn in *. by injection Happ as -> _ -> _.
Qed.

(** *** Claims about [Execute] *)

(** C7.  The StepResults of the WorkflowResult that [Execute] returns are
    all non-nil and stand in the declaration order of the workflow's steps:
    the i-th StepResult is that of the i-th declared step. *)
Theorem Execute_steps_in_declaration_order e ctx w s :
  exists srs,
    resultSteps (Execute e ctx w s).1.1 = Some <$> srs /\
    StepResult.StepID <$> srs =
      take (length srs) (Step.ID <$> Workflow.Steps w).
Proof.
  destruct (applyTimeout ctx (Workflow.Timeout w)) as [ctx'|perr] eqn:Ht.
  - destruct (Execute_run e ctx w s ctx' Ht)
      as (srs & err & s1 & Hsteps & ->).
    exists srs. split; [done|]. by eapply StepsRun_ids.
  - rewrite (Execute_bad_timeout _ _ _ _ _ Ht). by exists [].
Qed.

(** C6, as the code has it.  For a workflow whose timeout is empty or
    parses, the WorkflowResult enumerates, in declaration order, a
    StepResult for every step up to and including the first step that
    fails, and for every step when none fails; the steps after a failed
    step have no StepResult.  Each StepResult is terminal: those before the
    last are Completed, and the last is Failed, carrying the error that
    [Execute] returns as its cause, exactly when [Execute] returns an
    error.  No StepResult is Skipped. *)
Theorem Execute_reports_steps_up_to_failure e ctx w s ctx' :
  applyTimeout ctx (Workflow.Timeout w) = inl ctx' ->
  exists r srs,
    (Execute e ctx w s).1.1 = Some r /\
    WorkflowResult.Steps r = Some <$> srs /\
    StepResult.StepID <$> srs =
      take (length srs) (Step.ID <$> Workflow.Steps w) /\
    match (Execute e ctx w s).1.2 with
    | None =>
        length srs = length (Workflow.Steps w) /\ Forall stepDone srs
    | Some er =>
        exists done last,
          srs = done ++ [last] /\ Forall stepDone done /\
          (length srs <= length (Workflow.Steps w))%nat /\
          StepResult.Status last = StatusFailed /\
          StepResult.Error last = Some er
    end.
Proof.
  intros Ht.
  destruct (Execute_run e ctx w s ctx' Ht)
    as (srs & err & s1 & Hsteps & ->).
  eexists _, srs. split_and!; [done | done | by eapply StepsRun_ids |].
  by eapply StepsRun_shape.
Qed.

(** C1, as the code has it.  [Execute] returns a nil WorkflowResult, with
    an invalid-timeout error and no handler invoked, exactly when the
    workflow's own timeout is non-empty and does not parse.  Otherwise the
    WorkflowResult is non-nil and the returned error is the result's own
    Error: nil when the result is Completed, and the error of the failed
    last StepResult, a runtime step failure, when the result is Failed. *)
Theorem Execute_result_and_error e ctx w s :
  match applyTimeout ctx (Workflow.Timeout w) with
  | inr perr =>
      (Execute e ctx w s).1 = (None, Some (Errorf_invalid_timeout perr)) /\
      calls (Execute e ctx w s).2 = calls s
  | inl _ =>
      exists r,
        (Execute e ctx w s).1.1 = Some r /\
        WorkflowResult.Error r = (Execute e ctx w s).1.2 /\
        match (Execute e ctx w s).1.2 with
        | None => WorkflowResult.Status r = StatusCompleted
        | Some er =>
            WorkflowResult.Status r = StatusFailed /\
            exists sr,
              last (WorkflowResult.Steps r) = Some (Some sr) /\
              StepResult.Status sr = StatusFailed /\
              StepResult.Error sr = Some er
        end
  end.
Proof.
  destruct (applyTimeout ctx (Workflow.Timeout w)) as [ctx'|perr] eqn:Ht.
  - destruct (Execute_run e ctx w s ctx' Ht)
      as (srs & err & s1 & Hsteps & ->).
    eexists. split; [done|]. cbn.
    pose proof (StepsRun_shape _ _ _ _ _ _ _ Hsteps) as Hshape.
    destruct err as [er|]; [|done].
    destruct Hshape as (done & lst & -> & _ & _ & Hst & Her).
    split_and!; [done | done |]. exists lst.
    rewrite fmap_app. cbn [fmap list_fmap]. by rewrite last_snoc.
  - by rewrite (Execute_bad_timeout _ _ _ _ _ Ht).
Qed.

Lemma StepsRun_invocations e ctx steps s srs err s1 :
  StepsRun e ctx steps s srs err s1 ->
  exists n,
    calls s1 = calls s ++ take n (invocationOf <$> steps) /\
    (n <= length srs)%nat /\
    match err with
    | None => n = length steps
    | Some _ => (length srs <= S n)%nat
    end.
Proof.
  induction 1 as [s|step rest s sr err s1 Hrun
                 |step rest s sr s1 srs err s2 Hrun Hsteps IH].
  - exists 0%nat. by rewrite app_nil_r.
  - inversion Hrun; subst.
    + exists 0%nat. cbn. split_and!; [done | lia | lia].
    + exists 0%nat. cbn. split_and!; [done | lia | lia].
    + exists 1%nat. cbn. rewrite (right_id_L ∅ (∪)).
      split_and!; [done | lia | lia].
  - destruct IH as (n & Hcalls & Hn & Herr).
    inversion Hrun; subst. exists (S n). cbn in *.
    rewrite Hcalls, (right_id_L ∅ (∪)), <- app_assoc.
    split_and!; [done | lia |]. destruct err; lia.
Qed.

(** C2, as the code has it.  [Execute] does not look at [dependsOn]: for
    every workflow, cyclic or not, the run is the one of the same workflow
    with any other [dependsOn] lists.  The steps run sequentially in
    declaration order: handlers are invoked one per step, each with the
    step's own [With], starting from the first step and without a gap;
    every step is invoked when [Execute] returns no error, and the
    invocations stop at the failed step when it returns one.  So a cycle
    neither raises an error nor keeps a handler from being invoked. *)
Theorem Execute_ignores_dependsOn e ctx w s (deps : Step.t -> list string) :
  Execute e ctx
    (withSteps w ((fun st => withDependsOn st (deps st))
                    <$> Workflow.Steps w)) s =
  Execute e ctx w s /\
  exists n,
    calls (Execute e ctx w s).2 =
      calls s ++ take n (invocationOf <$> Workflow.Steps w) /\
    (n <= length (resultSteps (Execute e ctx w s).1.1))%nat /\
    match (Execute e ctx w s).1.2 with
    | None => n = length (Workflow.Steps w)
    | Some _ => (length (resultSteps (Execute e ctx w s).1.1) <= S n)%nat
    end.
Proof.
  split.
  - unfold Execute. cbn.
    destruct (applyTimeout ctx (Workflow.Timeout w)) as [ctx'|perr]; [|done].
    generalize (Build_RunState (world s) (S (ticks s)) (calls s)).
    generalize (WorkflowResult.mk (Workflow.Name w) StatusRunning []
                  (Now (ticks s)) 0 0 None).
    induction (Workflow.Steps w) as [|step rest IH]; intros r0 s0; [done|].
    cbn [fmap list_fmap runSteps]. unfold bind at 1 3.
    change (ExecuteStep e ctx' (withDependsOn step (deps step)) ∅ s0)
      with (ExecuteStep e ctx' step ∅ s0).
    destruct (ExecuteStep e ctx' step ∅ s0) as [[sr [er|]] s1]; [done|].
    apply IH.
  - destruct (applyTimeout ctx (Workflow.Timeout w)) as [ctx'|perr] eqn:Ht.
    + destruct (Execute_run e ctx w s ctx' Ht)
        as (srs & err & s1 & Hsteps & ->).
      destruct (StepsRun_invocations _ _ _ _ _ _ _ Hsteps)
        as (n & Hcalls & Hn & Herr).
      exists n. cbn in *. rewrite length_fmap. by split_and!.
    + rewrite (Execute_bad_timeout _ _ _ _ _ Ht). exists 0%nat. cbn.
      rewrite app_nil_r. split_and!; [done | lia | lia].
Qed.

(** C9.  With deterministic handlers, two runs of [Execute] on the same
    workflow, from any two states of the clock and of the world and under
    any two contexts, return the same error and WorkflowResults that agree
    on every field but the timestamps and durations. *)
Theorem Execute_content_deterministic e w ctx1 ctx2 s1 s2 :
  deterministicEngine e ->
  workflowContent <$> (Execute e ctx1 w s1).1.1 =
    workflowContent <$> (Execute e ctx2 w s2).1.1 /\
  (Execute e ctx1 w s1).1.2 = (Execute e ctx2 w s2).1.2.
Proof.
  intros Hdet. unfold Execute.
  pose proof (applyTimeout_agree ctx1 ctx2 (Workflow.Timeout w)) as Hag.
  destruct (applyTimeout ctx1 (Workflow.Timeout w)) as [c1|p1],
           (applyTimeout ctx2 (Workflow.Timeout w)) as [c2|p2]; try done.
  - unfold bind, time_Now. by apply runSteps_content_deterministic.
  - by subst p2.
Qed.

End Properties.

(** ** Further properties of the package *)

(** *** The validator *)

Lemma validateSteps_None steps : forall i,
  validateSteps i steps = None <-> Forall stepNamed steps.
Proof.
  induction steps as [|step rest IH]; intros i; cbn.
  - split; [constructor | done].
  - rewrite Forall_cons. unfold stepNamed at 1.
    destruct (decide (Step.ID step = "")) as [Hid|Hid];
      [split; [done | tauto]|].
    destruct (decide (Step.Name step = "")) as [Hname|Hname];
      [split; [done | tauto]|].
    rewrite IH. tauto.
Qed.

Lemma validateSteps_defect steps : forall k i st,
  Forall stepNamed (take i steps) ->
  steps !! i = Some st ->
  ~ stepNamed st ->
  validateSteps k steps =
    Some (ValidationError.mk
            (stepsField (k + i)
               (if decide (Step.ID st = "") then "id" else "name"))
            "required").
Proof.
  induction steps as [|step rest IH]; intros k i st Hpre Hi Hbad; [done|].
  destruct i as [|i]; cbn in *.
  - injection Hi as ->. rewrite Nat.add_0_r.
    unfold stepNamed in Hbad. repeat case_decide; try done.
    by destruct Hbad.
  - apply Forall_cons in Hpre as [[Hid Hname] Hpre].
    destruct (decide (Step.ID step = "")); [done|].
    destruct (decide (Step.Name step = "")); [done|].
    replace (k + S i)%nat with (S k + i)%nat by lia.
    by apply IH.
Qed.

Lemma validateSteps_app steps more err : forall i,
  validateSteps i steps = Some err ->
  validateSteps i (steps ++ more) = Some err.
Proof.
  induction steps as [|step rest IH]; intros i H; [done|].
  cbn in *. repeat case_decide; try done. by apply IH.
Qed.

(** X1.  [Validate] accepts a workflow exactly when it has a name, at least one
    step, and every step has an id and a name. *)
Theorem Validate_accepts_iff w :
  Validate w = None <->
  Workflow.Name w <> "" /\ Workflow.Steps w <> [] /\
  Forall stepNamed (Workflow.Steps w).
Proof.
  unfold Validate. case_decide as Hn; [split; [done | tauto]|].
  case_decide as Hl.
  - apply length_zero_iff_nil in Hl. split; [done | tauto].
  - rewrite validateSteps_None. split; [|tauto].
    intros Hall. split_and!; [done | | done].
    intros Hnil. by rewrite Hnil in Hl.
Qed.

(** X2.  For a named workflow, [Validate] reports the first step that lacks an
    id or a name: the error's field carries that step's index, and the id
    is reported before the name. *)
Theorem Validate_reports_first_defect w i st :
  Workflow.Name w <> "" ->
  Forall stepNamed (take i (Workflow.Steps w)) ->
  Workflow.Steps w !! i = Some st ->
  ~ stepNamed st ->
  Validate w =
    Some (ValidationError.mk
            (stepsField i (if decide (Step.ID st = "") then "id" else "name"))
            "required").
Proof.
  intros Hn Hpre Hi Hbad. unfold Validate.
  case_decide; [done|]. case_decide as Hl.
  - apply length_zero_iff_nil in Hl. by rewrite Hl in Hi.
  - by rewrite (validateSteps_defect _ 0%nat i st Hpre Hi Hbad).
Qed.

(** X3.  An error that [Validate] reports for a workflow with steps stays the
    same when more steps are appended. *)
Theorem Validate_error_stable w more err :
  Workflow.Steps w <> [] ->
  Validate w = Some err ->
  Validate (withSteps w (Workflow.Steps w ++ more)) = Some err.
Proof.
  intros Hne. unfold Validate. cbn.
  case_decide; [done|].
  case_decide as Hl; [by apply length_zero_iff_nil in Hl|].
  case_decide as Hl'.
  - apply length_zero_iff_nil, app_eq_nil in Hl' as [? _]. done.
  - apply validateSteps_app.
Qed.

(** *** Registration *)

Section MoreProperties.
Context `{RT : Runtime}.

Lemma ExecuteStep_register_other e name (h : ActionHandler) ctx step inputs s :
  Step.Action step <> name ->
  ExecuteStep (RegisterAction e name h) ctx step inputs s =
    ExecuteStep e ctx step inputs s.
Proof.
  intros Hne. unfold ExecuteStep, RegisterAction. cbn [actions].
  by rewrite lookup_insert_ne.
Qed.

Lemma runSteps_register_other e name (h : ActionHandler) ctx steps :
  Forall (fun st => Step.Action st <> name) steps ->
  forall r s,
    runSteps (RegisterAction e name h) ctx steps r s =
      runSteps e ctx steps r s.
Proof.
  induction 1 as [|step rest Hne Hall IH]; intros r s; [done|].
  cbn [runSteps]. unfold bind at 1 3.
  rewrite (ExecuteStep_register_other _ _ _ _ _ _ _ Hne).
  destruct (ExecuteStep e ctx step ∅ s) as [[sr [er|]] s1]; [done|].
  apply IH.
Qed.

(** X4.  Registering a handler under a name that no step of the workflow uses
    as its action does not change the run of the workflow. *)
Theorem Execute_register_other e name (h : ActionHandler) ctx w s :
  Forall (fun st => Step.Action st <> name) (Workflow.Steps w) ->
  Execute (RegisterAction e name h) ctx w s = Execute e ctx w s.
Proof.
  intros Hall. unfold Execute.
  destruct (applyTimeout ctx (Workflow.Timeout w)) as [ctx'|perr]; [|done].
  unfold bind, time_Now. by apply runSteps_register_other.
Qed.

(** X5.  A step runs the handler registered last under its action name,
    whatever was registered under that name before: the handler is invoked
    once, with the merged inputs, and its error and the world it leaves are
    those of [ExecuteStep]. *)
Theorem ExecuteStep_registered_handler e (h : ActionHandler) ctx step inputs
    s ctx' :
  applyTimeout ctx (Step.Timeout step) = inl ctx' ->
  let run :=
    ExecuteStep (RegisterAction e (Step.Action step) h) ctx step inputs s in
  let call := h ctx' (Step.With step ∪ inputs) (world s) in
  calls run.2 = calls s ++ [(Step.Action step, Step.With step ∪ inputs)] /\
  world run.2 = call.2 /\
  run.1.2 = call.1.2 /\
  StepResult.Status <$> run.1.1 =
    Some (match call.1.2 with
          | Some _ => StatusFailed
          | None => StatusCompleted
          end).
Proof.
  intros Ht.
  assert (Ha : actions (RegisterAction e (Step.Action step) h)
                 !! Step.Action step = Some h)
    by apply lookup_insert_eq.
  cbn zeta.
  destruct (h ctx' (Step.With step ∪ inputs) (world s))
    as [[out [err|]] w'] eqn:Hh.
  - by rewrite (ExecuteStep_handler_failed _ _ _ _ _ _ _ _ _ _ Ht Ha Hh).
  - by rewrite (ExecuteStep_handler_ok _ _ _ _ _ _ _ _ _ Ht Ha Hh).
Qed.

(** X6.  An engine without registered actions runs nothing: on a workflow with
    at least one step [Execute] returns an error, reports at most the first
    step, and leaves the invocation log and the world as they were. *)
Theorem NewEngine_runs_nothing ctx w s :
  Workflow.Steps w <> [] ->
  is_Some (Execute NewEngine ctx w s).1.2 /\
  (length (resultSteps (Execute NewEngine ctx w s).1.1) <= 1)%nat /\
  calls (Execute NewEngine ctx w s).2 = calls s /\
  world (Execute NewEngine ctx w s).2 = world s.
Proof.
  intros Hne.
  destruct (applyTimeout ctx (Workflow.Timeout w)) as [ctx'|perr] eqn:Ht.
  - destruct (Execute_run NewEngine ctx w s ctx' Ht)
      as (srs & err & s1 & Hsteps & ->).
    assert (Hempty : forall name (h : ActionHandler),
              actions NewEngine !! name = Some h -> False).
    { intros name h Hl. cbn in Hl. by rewrite lookup_empty in Hl. }
    inversion Hsteps as [s0 Hnil|step rest s0 sr er s2 Hrun
                        |step rest s0 sr s2 srs' err' s3 Hrun]; subst.
    + by destruct Hne.
    + inversion Hrun; subst; cbn; rewrite ?app_nil_r;
        try (split_and!; [by eexists | lia | done | done]);
        exfalso; eauto.
    + inversion Hrun; subst; exfalso; eauto.
  - rewrite (Execute_bad_timeout _ _ _ _ _ Ht). cbn.
    split_and!; [by eexists | lia | done | done].
Qed.

(** *** What a run invokes *)

(** X7.  [Execute] invokes handlers in the declaration order of the steps, one
    invocation per step and each with the step's own [With] as inputs,
    starting from the first step and without a gap.  When it returns no
    error every step has been invoked; when it returns one, the invocations
    stop at the failed step. *)
Theorem Execute_invocations e ctx w s :
  exists n,
    calls (Execute e ctx w s).2 =
      calls s ++ take n (invocationOf <$> Workflow.Steps w) /\
    (n <= length (resultSteps (Execute e ctx w s).1.1))%nat /\
    match (Execute e ctx w s).1.2 with
    | None => n = length (Workflow.Steps w)
    | Some _ => (length (resultSteps (Execute e ctx w s).1.1) <= S n)%nat
    end.
Proof.
  destruct (applyTimeout ctx (Workflow.Timeout w)) as [ctx'|perr] eqn:Ht.
  - destruct (Execute_run e ctx w s ctx' Ht)
      as (srs & err & s1 & Hsteps & ->).
    destruct (StepsRun_invocations _ _ _ _ _ _ _ Hsteps)
      as (n & Hcalls & Hn & Herr).
    exists n. cbn in *. rewrite length_fmap. by split_and!.
  - rewrite (Execute_bad_timeout _ _ _ _ _ Ht). exists 0%nat. cbn.
    rewrite app_nil_r. split_and!; [done | lia | lia].
Qed.

(** *** Steps after a failure *)

Lemma runSteps_app_failed e ctx steps more : forall r s er,
  (runSteps e ctx steps r s).1.2 = Some er ->
  runSteps e ctx (steps ++ more) r s = runSteps e ctx steps r s.
Proof.
  induction steps as [|step rest IH]; intros r s er H; [done|].
  cbn [app runSteps] in *. unfold bind at 1 3. unfold bind at 1 in H.
  destruct (ExecuteStep e ctx step ∅ s) as [[sr [er'|]] s1]; [done|].
  by eapply IH.
Qed.

(** X8.  Once a workflow fails, nothing that follows matters: with any steps
    appended to it, [Execute] returns the same results, the same error and
    the same state. *)
Theorem Execute_ignores_steps_after_failure e ctx w s more er :
  (Execute e ctx w s).1.2 = Some er ->
  Execute e ctx (withSteps w (Workflow.Steps w ++ more)) s =
    Execute e ctx w s.
Proof.
  unfold Execute. cbn [Workflow.Name Workflow.Timeout Workflow.Steps withSteps].
  destruct (applyTimeout ctx (Workflow.Timeout w)) as [ctx'|perr]; [|done].
  unfold bind, time_Now. apply runSteps_app_failed.
Qed.

Lemma runSteps_app_prefix e ctx steps more : forall r s,
  resultSteps (runSteps e ctx steps r s).1.1 `prefix_of`
    resultSteps (runSteps e ctx (steps ++ more) r s).1.1.
Proof.
  induction steps as [|step rest IH]; intros r s.
  - change ([] ++ more) with more.
    destruct (runSteps_run e ctx more r s) as (srs & err & s1 & _ & ->).
    cbn. by eexists.
  - cbn [app runSteps]. unfold bind at 1 3.
    destruct (ExecuteStep e ctx step ∅ s) as [[sr [er'|]] s1]; [done|].
    apply IH.
Qed.

(** X9.  Appending steps to a workflow never changes the StepResults already
    reported, timestamps included: the results of the shorter workflow are
    a prefix of those of the longer one. *)
Theorem Execute_results_grow e ctx w s more :
  resultSteps (Execute e ctx w s).1.1 `prefix_of`
    resultSteps
      (Execute e ctx (withSteps w (Workflow.Steps w ++ more)) s).1.1.
Proof.
  unfold Execute. cbn [Workflow.Name Workflow.Timeout Workflow.Steps withSteps].
  destruct (applyTimeout ctx (Workflow.Timeout w)) as [ctx'|perr]; [|done].
  unfold bind, time_Now. apply runSteps_app_prefix.
Qed.

(** *** One step, no step *)

(** X10.  Executing a workflow of one step is [ExecuteStep] on that step with nil
    inputs, one clock reading later: same StepResult, same error, and the
    state it leaves but for the final clock reading. *)
Theorem Execute_single_step e ctx w s ctx' step :
  applyTimeout ctx (Workflow.Timeout w) = inl ctx' ->
  Workflow.Steps w = [step] ->
  resultSteps (Execute e ctx w s).1.1 =
    [(ExecuteStep e ctx' step ∅ (tick s)).1.1] /\
  (Execute e ctx w s).1.2 = (ExecuteStep e ctx' step ∅ (tick s)).1.2 /\
  (Execute e ctx w s).2 = tick (ExecuteStep e ctx' step ∅ (tick s)).2.
Proof.
  intros Ht Hsteps. unfold Execute. rewrite Ht, Hsteps.
  cbn [runSteps]. unfold bind, time_Now, ret. cbn beta iota.
  change {| world := world s; ticks := S (ticks s); calls := calls s |}
    with (tick s).
  by destruct (ExecuteStep e ctx' step ∅ (tick s)) as [[sr [er|]] s1].
Qed.

(** X11.  A workflow without steps is rejected by [Validate], yet [Execute]
    completes it: no error, no StepResult, no invocation. *)
Theorem Execute_no_steps e ctx w s ctx' :
  applyTimeout ctx (Workflow.Timeout w) = inl ctx' ->
  Workflow.Steps w = [] ->
  is_Some (Validate w) /\
  (Execute e ctx w s).1.2 = None /\
  WorkflowResult.Status <$> (Execute e ctx w s).1.1 = Some StatusCompleted /\
  WorkflowResult.Steps <$> (Execute e ctx w s).1.1 = Some [] /\
  calls (Execute e ctx w s).2 = calls s.
Proof.
  intros Ht Hsteps. split.
  - unfold Validate. rewrite Hsteps. case_decide; by eexists.
  - unfold Execute. by rewrite Ht, Hsteps.
Qed.

(** *** Timestamps *)

Lemma Sub_nonneg (t u : Z) : (u <= t)%Z -> (0 <= Sub t u)%Z.
Proof.
  intros H. unfold Sub, minDuration, maxDuration. cbn zeta.
  repeat case_match; lia.
Qed.

Lemma StepRun_times e ctx step inputs s sr err s' :
  StepRun e ctx step inputs s (Some sr) err s' ->
  stepTimes (Some sr) = [Now (ticks s); Now (S (ticks s))] /\
  StepResult.Duration sr = Sub (Now (S (ticks s))) (Now (ticks s)) /\
  ticks s' = S (S (ticks s)).
Proof. intros H. inversion H; subst; done. Qed.

Lemma StepsRun_times e ctx steps s srs err s1 :
  StepsRun e ctx steps s srs err s1 ->
  concat (stepTimes <$> (Some <$> srs)) =
    Now <$> seq (ticks s) (2 * length srs) /\
  ticks s1 = (ticks s + 2 * length srs)%nat.
Proof.
  induction 1 as [s|step rest s sr err s1 Hrun
                 |step rest s sr s1 srs err s2 Hrun Hsteps IH].
  - split; [done | cbn; lia].
  - destruct (StepRun_times _ _ _ _ _ _ _ _ Hrun) as (Ht & _ & Hk).
    cbn [fmap list_fmap concat]. rewrite Ht. cbn. split; [done | lia].
  - destruct (StepRun_times _ _ _ _ _ _ _ _ Hrun) as (Ht & _ & Hk).
    destruct IH as [IHt IHk].
    cbn [fmap list_fmap concat]. rewrite Ht, IHt, Hk.
    replace (2 * length (sr :: srs))%nat with (S (S (2 * length srs)))
      by (cbn; lia).
    split; [done | lia].
Qed.

Lemma timeline_finalResult e ctx steps w s srs err s1 :
  StepsRun e ctx steps (tick s) srs err s1 ->
  timeline (finalResult (startResult w s) srs err s1) =
    Now <$> seq (ticks s) (2 * length srs + 2).
Proof.
  intros Hsteps.
  destruct (StepsRun_times _ _ _ _ _ _ _ Hsteps) as [Hline Hk].
  unfold timeline, finalResult, startResult.
  cbn [WorkflowResult.StartTime WorkflowResult.Steps WorkflowResult.EndTime
       app].
  rewrite Hline, Hk. cbn [tick ticks].
  replace (2 * length srs + 2)%nat with (S (2 * length srs + 1)) by lia.
  cbn [seq fmap list_fmap]. f_equal.
  by rewrite seq_app, fmap_app.
Qed.

(** X12.  The timestamps of a WorkflowResult are consecutive clock readings: the
    workflow's start, then start and end of each reported step in order,
    then the workflow's end.  [Execute] reads the clock exactly that many
    times. *)
Theorem Execute_timeline e ctx w s ctx' :
  applyTimeout ctx (Workflow.Timeout w) = inl ctx' ->
  exists r,
    (Execute e ctx w s).1.1 = Some r /\
    timeline r =
      Now <$> seq (ticks s) (2 * length (WorkflowResult.Steps r) + 2) /\
    ticks (Execute e ctx w s).2 =
      (ticks s + 2 * length (WorkflowResult.Steps r) + 2)%nat.
Proof.
  intros Ht.
  destruct (Execute_run e ctx w s ctx' Ht)
    as (srs & err & s1 & Hsteps & ->).
  eexists. split; [done|].
  rewrite (timeline_finalResult _ _ _ _ _ _ _ _ Hsteps).
  destruct (StepsRun_times _ _ _ _ _ _ _ Hsteps) as [_ Hk].
  cbn in *. rewrite length_fmap. split; [done | lia].
Qed.

Lemma readings_sorted k n :
  monotoneClock -> Sorted Z.le (Now <$> seq k n).
Proof.
  intros Hmono. revert k. induction n as [|n IH]; intros k; [constructor|].
  cbn. constructor; [apply IH|].
  destruct n; cbn; constructor. apply Hmono. lia.
Qed.

Lemma StepsRun_timed e ctx steps s srs err s1 :
  monotoneClock ->
  StepsRun e ctx steps s srs err s1 ->
  Forall stepTimed (Some <$> srs).
Proof.
  intros Hmono.
  assert (Hone : forall step s sr err s',
    StepRun e ctx step ∅ s (Some sr) err s' -> stepTimed (Some sr)).
  { intros step s0 sr err0 s' Hrun. inversion Hrun; subst; cbn;
      (split; [done|]); apply Sub_nonneg, Hmono; lia. }
  induction 1 as [s|step rest s sr err s1 Hrun
                 |step rest s sr s1 srs err s2 Hrun Hsteps IH]; cbn.
  - constructor.
  - constructor; [by eapply Hone | constructor].
  - constructor; [by eapply Hone | done].
Qed.

(** X13.  Under a clock that never runs backwards the run is sequential in its
    timestamps: the workflow starts before its first step, every step ends
    before the next one starts, the last step ends before the workflow
    does; and every duration is the end minus the start and is not
    negative. *)
Theorem Execute_timestamps_ordered e ctx w s ctx' :
  monotoneClock ->
  applyTimeout ctx (Workflow.Timeout w) = inl ctx' ->
  exists r,
    (Execute e ctx w s).1.1 = Some r /\
    Sorted Z.le (timeline r) /\
    Forall stepTimed (WorkflowResult.Steps r) /\
    WorkflowResult.Duration r =
      Sub (WorkflowResult.EndTime r) (WorkflowResult.StartTime r) /\
    0 <= WorkflowResult.Duration r.
Proof.
  intros Hmono Ht.
  destruct (Execute_run e ctx w s ctx' Ht)
    as (srs & err & s1 & Hsteps & Heq).
  rewrite Heq. eexists. split; [done|].
  rewrite (timeline_finalResult _ _ _ _ _ _ _ _ Hsteps).
  split; [by apply readings_sorted|]. cbn.
  split_and!; [by eapply StepsRun_timed | done |].
  destruct (StepsRun_times _ _ _ _ _ _ _ Hsteps) as [_ Hk].
  apply Sub_nonneg, Hmono. cbn in Hk. lia.
Qed.

End MoreProperties.

(** *** The in-memory store *)

Section StoreProperties.
Context `{SH : StoreHost}.

Lemma Save_id_nonempty m st : Memory.ID (heap (Save m st).2 m) <> "".
Proof.
  unfold Save. destruct (decide (Memory.ID (heap st m) = "")) as [He|He];
    cbn; rewrite decide_True by done; cbn; [apply uuid_New_nonempty | done].
Qed.

Lemma Save_memories m st :
  memories (Save m st).2 =
    <[Memory.ID (heap (Save m st).2 m) := m]> (memories st).
Proof.
  unfold Save. destruct (decide (Memory.ID (heap st m) = ""));
    cbn; by rewrite decide_True.
Qed.

Lemma Save_heap_other m st p :
  p <> m -> heap (Save m st).2 p = heap st p.
Proof.
  intros Hne. unfold Save. destruct (decide (Memory.ID (heap st m) = ""));
    cbn; by rewrite decide_False.
Qed.

(** X14.  [Save] never fails, and what it saves can be read back: the memory
    carries a non-empty ID (its own, or a fresh UUID when it had none) under
    which [Get] returns the very pointer that was saved; its UpdatedAt is
    the time of the call, its CreatedAt is kept unless it was the zero
    time, and its other fields are untouched. *)
Theorem Save_then_Get m st :
  let old := heap st m in
  let saved := heap (Save m st).2 m in
  (Save m st).1 = None /\
  Get (Memory.ID saved) (Save m st).2 = (Some m, None) /\
  Memory.ID saved <> "" /\
  Memory.ID saved =
    (if decide (Memory.ID old = "") then uuid_New (uuidDraws st)
     else Memory.ID old) /\
  Memory.UpdatedAt saved = hostNow (clockReads st) /\
  Memory.CreatedAt saved =
    (if (Memory.CreatedAt old =? 0)%Z then hostNow (clockReads st)
     else Memory.CreatedAt old) /\
  (Memory.Typ saved, Memory.Content saved, Memory.Embedding saved,
   Memory.Metadata saved, Memory.Score saved) =
  (Memory.Typ old, Memory.Content old, Memory.Embedding old,
   Memory.Metadata old, Memory.Score old).
Proof.
  cbn zeta. split_and!.
  - unfold Save. by destruct (decide (Memory.ID (heap st m) = "")).
  - unfold Get. by rewrite Save_memories, lookup_insert_eq.
  - apply Save_id_nonempty.
  - unfold Save. destruct (decide (Memory.ID (heap st m) = ""));
      cbn; by rewrite decide_True.
  - unfold Save. destruct (decide (Memory.ID (heap st m) = ""));
      cbn; by rewrite decide_True.
  - unfold Save. destruct (decide (Memory.ID (heap st m) = ""));
      cbn; by rewrite decide_True.
  - unfold Save. destruct (decide (Memory.ID (heap st m) = ""));
      cbn; by rewrite decide_True.
Qed.

(** X15.  [Save] touches nothing else: every other key leads where it led, and
    every other memory is as it was. *)
Theorem Save_leaves_others m st id p :
  id <> Memory.ID (heap (Save m st).2 m) ->
  p <> m ->
  Get id (Save m st).2 = Get id st /\
  heap (Save m st).2 p = heap st p.
Proof.
  intros Hid Hp. split; [|by apply Save_heap_other].
  unfold Get. by rewrite Save_memories, lookup_insert_ne.
Qed.

(** X16.  Saving the same pointer again keeps its ID, its key and the set of
    keys, draws no new UUID, and only moves UpdatedAt on (and CreatedAt,
    if the first save left it at the zero time). *)
Theorem Save_again m st :
  let st1 := (Save m st).2 in
  let st2 := (Save m st1).2 in
  Memory.ID (heap st2 m) = Memory.ID (heap st1 m) /\
  memories st2 = memories st1 /\
  uuidDraws st2 = uuidDraws st1 /\
  Memory.UpdatedAt (heap st2 m) = hostNow (S (clockReads st)) /\
  Memory.CreatedAt (heap st2 m) =
    (if (Memory.CreatedAt (heap st1 m) =? 0)%Z
     then hostNow (S (clockReads st))
     else Memory.CreatedAt (heap st1 m)).
Proof.
  cbn zeta. pose proof (Save_id_nonempty m st) as Hid.
  set (st1 := (Save m st).2) in *.
  assert (Hreads : clockReads st1 = S (clockReads st)).
  { unfold st1, Save. by destruct (decide (Memory.ID (heap st m) = "")). }
  assert (Hmem : memories st1 = <[Memory.ID (heap st1 m) := m]> (memories st))
    by apply Save_memories.
  unfold Save at 1 2 3 4 5.
  rewrite !(decide_False (P := Memory.ID (heap st1 m) = "")) by done.
  cbn. rewrite !decide_True by done. cbn. rewrite Hreads.
  split_and!; try done.
  by rewrite Hmem, insert_insert_eq.
Qed.

(** X17.  [Delete] of a key the store holds succeeds, after which [Get] and a
    second [Delete] of that key fail with "memory not found", every other
    key leads where it led, and the memories themselves are untouched.
    [Delete] of a key the store does not hold fails with "memory not
    found" and changes nothing. *)
Theorem Delete_then_Get id st :
  match memories st !! id with
  | Some _ =>
      (Delete id st).1 = None /\
      Get id (Delete id st).2 = (None, Some (Errorf_not_found id)) /\
      (Delete id (Delete id st).2).1 = Some (Errorf_not_found id) /\
      heap (Delete id st).2 = heap st /\
      forall id', id' <> id -> Get id' (Delete id st).2 = Get id' st
  | None => Delete id st = (Some (Errorf_not_found id), st)
  end.
Proof.
  unfold Delete, Get.
  destruct (memories st !! id) as [p|] eqn:Hl; [|done].
  cbn. rewrite lookup_delete_eq. split_and!; try done.
  intros id' Hne. by rewrite lookup_delete_ne.
Qed.

Lemma runOp_consistent op st :
  storeConsistent st -> storeConsistent (runOp op st).
Proof.
  intros Hc id p. destruct op as [m|id0|]; cbn.
  - rewrite Save_memories. intros Hl.
    apply lookup_insert_Some in Hl as [[<- <-]|[Hne Hl]].
    + split; [done | apply Save_id_nonempty].
    + destruct (Hc _ _ Hl) as [Hid Hnonempty]. split; [|done].
      destruct (decide (p = m)) as [->|Hp].
      * exfalso. apply Hne. unfold Save.
        rewrite (decide_False (P := Memory.ID (heap st m) = ""))
          by congruence.
        cbn. by rewrite decide_True.
      * by rewrite Save_heap_other.
  - unfold Delete. destruct (memories st !! id0); [|apply Hc].
    cbn. intros Hl. apply lookup_delete_Some in Hl as [_ Hl]. by apply Hc.
  - by rewrite lookup_empty.
Qed.

(** X19.  However a client saves, deletes and clears, starting from a new store,
    every key of the store leads to a memory that carries that key as its
    ID, and no key is the empty string (as long as the client does not
    write to a saved memory behind the store's back). *)
Theorem store_stays_consistent ops h :
  storeConsistent (runOps ops (NewInMemoryStore h)).
Proof.
  unfold runOps.
  assert (H0 : storeConsistent (NewInMemoryStore h)).
  { intros id p Hl. cbn in Hl. by rewrite lookup_empty in Hl. }
  revert H0. generalize (NewInMemoryStore h).
  induction ops as [|op ops IH]; intros st Hst; [done|].
  cbn. apply IH. by apply runOp_consistent.
Qed.

(** *** [List] *)

Lemma applyLimit_elems f (sl : option (list loc)) :
  elems (applyLimit f sl) =
    take (if (0 <? Filter.Limit f)%Z then Z.to_nat (Filter.Limit f)
          else length (elems sl)) (elems sl).
Proof.
  unfold applyLimit.
  destruct (Z.ltb_spec 0 (Filter.Limit f)); cbn.
  - destruct (Z.ltb_spec (Filter.Limit f) (Z.of_nat (length (elems sl))));
      cbn; [done|].
    rewrite take_ge; [done | lia].
  - by rewrite take_ge.
Qed.

Lemma page_elems f (sl : option (list loc)) :
  elems (page (Some f) sl) =
    take (if (0 <? Filter.Limit f)%Z then Z.to_nat (Filter.Limit f)
          else length (elems sl))
         (drop (Z.to_nat (Filter.Offset f)) (elems sl)).
Proof.
  unfold page.
  destruct (Z.ltb_spec 0 (Filter.Offset f)); cbn.
  - destruct (Z.ltb_spec (Filter.Offset f) (Z.of_nat (length (elems sl))));
      cbn.
    + rewrite applyLimit_elems. cbn.
      destruct (0 <? Filter.Limit f)%Z; [done|].
      rewrite !take_ge; [done | rewrite length_drop; lia | done].
    + destruct (Z.leb_spec (Z.of_nat (length (elems sl))) (Filter.Offset f));
        [|lia].
      cbn. rewrite drop_ge by lia. by rewrite take_nil.
  - destruct (Z.leb_spec (Z.of_nat (length (elems sl))) (Filter.Offset f)).
    + assert (Hnil : elems sl = []) by (apply length_zero_iff_nil; lia).
      rewrite Hnil. cbn. by rewrite drop_nil, take_nil.
    + rewrite applyLimit_elems.
      by replace (Z.to_nat (Filter.Offset f)) with 0%nat by lia.
Qed.

Lemma Listed_inv st flt result :
  Listed st flt result ->
  exists sorted,
    sorted ≡ₚ matching st flt /\
    newestFirst (heap st) sorted /\
    result = page flt (match sorted with [] => None | _ => Some sorted end).
Proof.
  intros Hl. inversion Hl as [visited sorted Hv Hs Hn]; subst.
  exists sorted. split_and!; [|done|done].
  unfold matching. by rewrite Hs, Hv.
Qed.

Lemma elems_of_sorted (sorted : list loc) :
  elems (match sorted with [] => None | _ => Some sorted end) = sorted.
Proof. by destruct sorted. Qed.

(** X18.  [Clear] empties the store without touching the memories: afterwards
    [Get] fails for every key and [List] returns no memory. *)
Theorem Clear_then_nothing st :
  (Clear st).1 = None /\
  heap (Clear st).2 = heap st /\
  (forall id, Get id (Clear st).2 = (None, Some (Errorf_not_found id))) /\
  (forall flt result, Listed (Clear st).2 flt result -> elems result = []).
Proof.
  split_and!; try done.
  intros flt result Hl.
  destruct (Listed_inv _ _ _ Hl) as (sorted & Hp & _ & ->).
  assert (Hm : matching (Clear st).2 flt = []).
  { unfold matching. cbn [Clear snd memories]. by rewrite map_to_list_empty. }
  rewrite Hm in Hp. apply Permutation_nil_r in Hp. subst sorted. destruct flt as [f|]; [|done].
  rewrite page_elems. cbn. by rewrite drop_nil, take_nil.
Qed.

(** The relation is inhabited: the memories that pass a filter always have
    a newest-first arrangement. *)
Lemma Listed_exists st flt : exists result, Listed st flt result.
Proof.
  set (R := fun a b : loc =>
              (Memory.CreatedAt (heap st b) <= Memory.CreatedAt (heap st a))%Z).
  assert (Htrans : Transitive R) by (intros a b c; unfold R; lia).
  assert (Htotal : Total R) by (intros a b; unfold R; lia).
  assert (Hdec : forall x y, Decision (R x y))
    by (intros x y; unfold R; apply _).
  eexists.
  apply (ListedAs st flt (map_to_list (memories st)).*2
           (merge_sort R
              (filter (fun p => passes flt (heap st p) = true)
                 (map_to_list (memories st)).*2))).
  - done.
  - apply merge_sort_Permutation.
  - by apply StronglySorted_merge_sort.
Qed.

(** X21.  What [List] returns is a page of the memories that pass the filter,
    arranged newest first: it skips [Offset] of them and keeps at most
    [Limit]; an [Offset] that is not positive skips none, and a [Limit]
    that is not positive keeps all. *)
Theorem Listed_is_page st f result :
  Listed st (Some f) result ->
  exists sorted,
    sorted ≡ₚ matching st (Some f) /\
    newestFirst (heap st) sorted /\
    elems result =
      take (if (0 <? Filter.Limit f)%Z then Z.to_nat (Filter.Limit f)
            else length sorted)
           (drop (Z.to_nat (Filter.Offset f)) sorted).
Proof.
  intros Hl. destruct (Listed_inv _ _ _ Hl) as (sorted & Hp & Hn & ->).
  exists sorted. split_and!; [done | done |].
  by rewrite page_elems, elems_of_sorted.
Qed.

(** X22.  Without a filter [List] returns every pointer the store holds, once
    per key, newest first; the slice is nil exactly when the store is
    empty. *)
Theorem Listed_unfiltered st result :
  Listed st None result ->
  elems result ≡ₚ (map_to_list (memories st)).*2 /\
  newestFirst (heap st) (elems result) /\
  (result = None <-> memories st = ∅).
Proof.
  intros Hl. destruct (Listed_inv _ _ _ Hl) as (sorted & Hp & Hn & ->).
  cbn [page]. rewrite elems_of_sorted.
  assert (Hall : matching st None = (map_to_list (memories st)).*2).
  { unfold matching. induction ((map_to_list (memories st)).*2) as [|p l IH];
      [done|].
    rewrite filter_cons_True by done. by rewrite IH. }
  rewrite Hall in Hp. split_and!; [done | done |].
  split.
  - destruct sorted as [|p sorted]; [|done]. intros _.
    apply Permutation_nil_l in Hp. symmetry in Hp.
    apply fmap_nil_inv in Hp. by apply map_to_list_empty_iff.
  - intros He. rewrite He, map_to_list_empty in Hp.
    apply Permutation_nil_r in Hp. by subst.
Qed.


Lemma matching_members st flt :
  Forall (fun p => (exists id, memories st !! id = Some p) /\
                   passes flt (heap st p) = true)
         (matching st flt).
Proof.
  apply Forall_forall. intros p Hp. unfold matching in Hp.
  apply list_elem_of_filter in Hp as [Hpass Hin].
  apply list_elem_of_fmap in Hin as ([id q] & -> & Hin).
  apply elem_of_map_to_list in Hin. split; [by exists id | done].
Qed.

(** X23.  Every pointer [List] returns is held by the store and passes the
    filter, and the pointers come newest first. *)
Theorem Listed_members st flt result :
  Listed st flt result ->
  Forall (fun p => (exists id, memories st !! id = Some p) /\
                   passes flt (heap st p) = true)
         (elems result) /\
  newestFirst (heap st) (elems result).
Proof.
  intros Hl. destruct (Listed_inv _ _ _ Hl) as (sorted & Hp & Hn & ->).
  assert (Hall : Forall (fun p => (exists id, memories st !! id = Some p) /\
                                  passes flt (heap st p) = true) sorted).
  { rewrite Hp. apply matching_members. }
  destruct flt as [f|]; [|cbn [page]; by rewrite elems_of_sorted].
  rewrite page_elems, elems_of_sorted. split.
  - by apply Forall_take, Forall_drop.
  - unfold newestFirst in *.
    rewrite <- (take_drop (Z.to_nat (Filter.Offset f)) sorted) in Hn.
    apply StronglySorted_app_1_r in Hn.
    set (l := drop (Z.to_nat (Filter.Offset f)) sorted) in *.
    set (n := if (0 <? Filter.Limit f)%Z then Z.to_nat (Filter.Limit f)
              else length sorted).
    rewrite <- (take_drop n l) in Hn.
    by apply StronglySorted_app_1_l in Hn.
Qed.

(** X24.  With a positive [Limit], [List] never returns more than [Limit]
    memories. *)
Theorem Listed_limit st f result :
  (0 < Filter.Limit f)%Z ->
  Listed st (Some f) result ->
  (Z.of_nat (length (elems result)) <= Filter.Limit f)%Z.
Proof.
  intros Hpos Hl. destruct (Listed_inv _ _ _ Hl) as (sorted & _ & _ & ->).
  rewrite page_elems, elems_of_sorted.
  destruct (Z.ltb_spec 0 (Filter.Limit f)); [|lia].
  rewrite length_take. lia.
Qed.

(** X25.  With a filter whose [Offset] is at or beyond the number of memories
    that pass it, [List] returns an empty slice that is not nil; this is
    also what a filter with [Offset] zero gets when nothing passes. *)
Theorem Listed_beyond_offset st f result :
  (Z.of_nat (length (matching st (Some f))) <= Filter.Offset f)%Z ->
  Listed st (Some f) result ->
  result = Some [].
Proof.
  intros Hoff Hl. destruct (Listed_inv _ _ _ Hl) as (sorted & Hp & _ & ->).
  rewrite <- Hp in Hoff. unfold page. rewrite elems_of_sorted.
  destruct (Z.ltb_spec 0 (Filter.Offset f)); cbn.
  - destruct (Z.ltb_spec (Filter.Offset f) (Z.of_nat (length sorted)));
      [lia|]. cbn.
    by destruct (Z.leb_spec (Z.of_nat (length sorted)) (Filter.Offset f));
      [|lia].
  - by destruct (Z.leb_spec (Z.of_nat (length sorted)) (Filter.Offset f));
      [|lia].
Qed.

End StoreProperties.

(** ** The claims on concrete runs *)

#[local] Existing Instance stubRuntime.

Lemma dependsOn_empty w :
  Forall (fun st => Step.DependsOn st = []) (Workflow.Steps w) ->
  ~ cyclic w.
Proof.
  intros Hall [a Hc].
  assert (Hno : forall x y, ~ dependsOn w x y).
  { intros x y (st & Hin & _ & Hy).
    rewrite Forall_forall in Hall. rewrite (Hall st Hin) in Hy.
    by apply not_elem_of_nil in Hy. }
  destruct Hc as [x y Hxy|x y z Hxy _]; by apply Hno in Hxy.
Qed.

Lemma cycleAB_cyclic : cyclic cycleAB.
Proof.
  exists "A". eapply tc_l; [|apply tc_once].
  - exists (withDependsOn (mkStep "A" "noop") ["B"]).
    split_and!; [apply list_elem_of_here | done | apply list_elem_of_here].
  - exists (withDependsOn (mkStep "B" "noop") ["A"]).
    split_and!; [| done | apply list_elem_of_here].
    apply list_elem_of_further, list_elem_of_here.
Qed.

Lemma noop_deterministic : deterministic noop.
Proof. by intros ctx1 ctx2 inputs w1 w2. Qed.

Lemma echo_deterministic : deterministic echo.
Proof. by intros ctx1 ctx2 inputs w1 w2. Qed.

Lemma pureEngine_deterministic : deterministicEngine pureEngine.
Proof.
  intros name h Hl. unfold pureEngine, RegisterAction, NewEngine in Hl.
  cbn in Hl.
  apply lookup_insert_Some in Hl as [[_ <-]|[_ Hl]];
    [apply echo_deterministic|].
  apply lookup_insert_Some in Hl as [[_ <-]|[_ Hl]];
    [apply noop_deterministic|].
  by rewrite lookup_empty in Hl.
Qed.

(** C1 fails as stated: a workflow with no [dependsOn] entry at all, so
    with nothing wrong in its graph, whose first action is not registered
    makes [Execute] return a non-nil error for that runtime failure; and a
    workflow whose timeout does not parse gets a nil WorkflowResult. *)
Lemma Execute_error_for_step_failure :
  ~ cyclic failsFirst /\
  (Execute stubEngine background failsFirst initial).1.2 =
    Some (Errorf_unknown_action "missing") /\
  (Execute stubEngine background badWorkflowTimeout initial).1.1 = None.
Proof.
  split_and!.
  - apply dependsOn_empty. by repeat constructor.
  - by vm_compute.
  - by vm_compute.
Qed.

(** C2 fails as stated: with A depending on B and B on A, [Execute]
    returns no error, reports Completed, and has invoked both handlers. *)
Lemma Execute_runs_cyclic_workflow :
  cyclic cycleAB /\
  (Execute stubEngine background cycleAB initial).1.2 = None /\
  WorkflowResult.Status <$>
    (Execute stubEngine background cycleAB initial).1.1 =
    Some StatusCompleted /\
  calls (Execute stubEngine background cycleAB initial).2 =
    [("noop", ∅); ("noop", ∅)].
Proof.
  split_and!; [apply cycleAB_cyclic | by vm_compute ..].
Qed.

(** C3 fails as stated: a step whose [if] is the literal [false] ends
    Completed, not Skipped, and its handler is invoked once. *)
Lemma ExecuteStep_runs_guarded_step :
  Step.If guardedStep = "false" /\
  StepResult.Status <$>
    (ExecuteStep stubEngine background guardedStep ∅ initial).1.1 =
    Some StatusCompleted /\
  calls (ExecuteStep stubEngine background guardedStep ∅ initial).2 =
    [("noop", ∅)].
Proof. split_and!; by vm_compute. Qed.

(** C4 fails as stated: under [retries: 2] the handler that fails twice and
    then succeeds is invoked once, and the step ends Failed. *)
Lemma ExecuteStep_does_not_retry :
  Step.Retries retriedStep = 2 /\
  StepResult.Status <$>
    (ExecuteStep stubEngine background retriedStep ∅ initial).1.1 =
    Some StatusFailed /\
  calls (ExecuteStep stubEngine background retriedStep ∅ initial).2 =
    [("flaky", ∅)] /\
  world (ExecuteStep stubEngine background retriedStep ∅ initial).2 = 1%nat.
Proof. split_and!; by vm_compute. Qed.

(** C5 fails as stated: when the step's timeout does not parse, the error
    for an unregistered action is the invalid-timeout error, not the
    unknown-action error. *)
Lemma ExecuteStep_reports_timeout_first :
  actions stubEngine !! Step.Action lostStep = None /\
  (ExecuteStep stubEngine background lostStep ∅ initial).1.2 =
    Some (Errorf_invalid_timeout (time.errInvalid "soon")) /\
  (ExecuteStep stubEngine background lostStep ∅ initial).1.2 <>
    Some (Errorf_unknown_action (Step.Action lostStep)).
Proof. split_and!; by vm_compute. Qed.

(** C6 fails as stated: when the first of two steps fails, the
    WorkflowResult holds a StepResult for the first step only. *)
Lemma Execute_omits_steps_after_failure :
  Step.ID <$> Workflow.Steps failsFirst = ["s1"; "s2"] /\
  reportedIDs <$> (Execute stubEngine background failsFirst initial).1.1 =
    Some [Some "s1"].
Proof. split; by vm_compute. Qed.

(** *** Instances *)

Lemma ExecuteStep_merges_inputs_witness :
  applyTimeout background (Step.Timeout echoStep) = inl background /\
  actions stubEngine !! Step.Action echoStep = Some echo /\
  exists m : gmap string Value,
    (forall k, m !! k = match Step.With echoStep !! k with
                        | Some v => Some v
                        | None => callerInputs !! k
                        end) /\
    calls (ExecuteStep stubEngine background echoStep callerInputs initial).2 =
      calls initial ++ [(Step.Action echoStep, m)] /\
    world (ExecuteStep stubEngine background echoStep callerInputs initial).2 =
      (echo background m (world initial)).2 /\
    (ExecuteStep stubEngine background echoStep callerInputs initial).1.2 =
      (echo background m (world initial)).1.2 /\
    StepResult.Output <$>
      (ExecuteStep stubEngine background echoStep callerInputs initial).1.1 =
      Some (match (echo background m (world initial)).1.2 with
            | Some _ => None
            | None => (echo background m (world initial)).1.1
            end).
Proof.
  split; [reflexivity|]. split; [reflexivity|].
  apply (ExecuteStep_merges_inputs stubEngine background echoStep
           callerInputs initial background echo); reflexivity.
Defined.

Lemma ExecuteStep_unresolved_action_witness :
  actions stubEngine !! Step.Action lostStep = None /\
  exists r err,
    (ExecuteStep stubEngine background lostStep ∅ initial).1 =
      (Some r, Some err) /\
    StepResult.Status r = StatusFailed /\
    StepResult.Error r = Some err /\
    calls (ExecuteStep stubEngine background lostStep ∅ initial).2 =
      calls initial /\
    world (ExecuteStep stubEngine background lostStep ∅ initial).2 =
      world initial /\
    err = match applyTimeout background (Step.Timeout lostStep) with
          | inl _ => Errorf_unknown_action (Step.Action lostStep)
          | inr perr => Errorf_invalid_timeout perr
          end.
Proof.
  split; [reflexivity|].
  apply (ExecuteStep_unresolved_action stubEngine background lostStep ∅
           initial); reflexivity.
Defined.

Lemma Execute_reports_steps_up_to_failure_witness :
  applyTimeout background (Workflow.Timeout failsFirst) = inl background /\
  exists r srs,
    (Execute stubEngine background failsFirst initial).1.1 = Some r /\
    WorkflowResult.Steps r = Some <$> srs /\
    StepResult.StepID <$> srs =
      take (length srs) (Step.ID <$> Workflow.Steps failsFirst) /\
    match (Execute stubEngine background failsFirst initial).1.2 with
    | None =>
        length srs = length (Workflow.Steps failsFirst) /\
        Forall stepDone srs
    | Some er =>
        exists done last,
          srs = done ++ [last] /\ Forall stepDone done /\
          (length srs <= length (Workflow.Steps failsFirst))%nat /\
          StepResult.Status last = StatusFailed /\
          StepResult.Error last = Some er
    end.
Proof.
  split; [reflexivity|].
  apply (Execute_reports_steps_up_to_failure stubEngine background failsFirst
           initial background); reflexivity.
Defined.

Lemma Execute_content_deterministic_witness :
  deterministicEngine pureEngine /\
  workflowContent <$> (Execute pureEngine background twoNoops initial).1.1 =
    workflowContent <$>
      (Execute pureEngine [5000000000] twoNoops afterFirstRun).1.1 /\
  (Execute pureEngine background twoNoops initial).1.2 =
    (Execute pureEngine [5000000000] twoNoops afterFirstRun).1.2.
Proof.
  split; [apply pureEngine_deterministic|].
  apply (Execute_content_deterministic pureEngine twoNoops background
           [5000000000] initial afterFirstRun).
  apply pureEngine_deterministic.
Defined.

(** *** Instances of the further properties *)

Lemma stubRuntime_monotone : @monotoneClock stubRuntime.
Proof. intros m n H. cbn. lia. Qed.

Lemma Validate_reports_first_defect_witness :
  Workflow.Name (mkWorkflow [namedStep; namelessStep]) <> "" /\
  Forall stepNamed
    (take 1 (Workflow.Steps (mkWorkflow [namedStep; namelessStep]))) /\
  Workflow.Steps (mkWorkflow [namedStep; namelessStep]) !! 1%nat =
    Some namelessStep /\
  ~ stepNamed namelessStep /\
  Validate (mkWorkflow [namedStep; namelessStep]) =
    Some (ValidationError.mk
            (stepsField 1
               (if decide (Step.ID namelessStep = "") then "id" else "name"))
            "required").
Proof.
  assert (H1 : Workflow.Name (mkWorkflow [namedStep; namelessStep]) <> "")
    by done.
  assert (H2 : Forall stepNamed
                 (take 1 (Workflow.Steps
                            (mkWorkflow [namedStep; namelessStep]))))
    by (repeat constructor; done).
  assert (H3 : ~ stepNamed namelessStep) by (intros [_ H]; by apply H).
  split_and!; [done | done | done | done |].
  apply (Validate_reports_first_defect
           (mkWorkflow [namedStep; namelessStep]) 1 namelessStep H1 H2
           eq_refl H3).
Defined.

Lemma Validate_error_stable_witness :
  Workflow.Steps (mkWorkflow [namelessStep]) <> [] /\
  Validate (mkWorkflow [namelessStep]) =
    Some (ValidationError.mk (stepsField 0 "name") "required") /\
  Validate (withSteps (mkWorkflow [namelessStep])
              (Workflow.Steps (mkWorkflow [namelessStep]) ++ [namedStep])) =
    Some (ValidationError.mk (stepsField 0 "name") "required").
Proof.
  assert (H1 : Workflow.Steps (mkWorkflow [namelessStep]) <> []) by done.
  split_and!; [done | reflexivity |].
  apply (Validate_error_stable (mkWorkflow [namelessStep]) [namedStep] _ H1).
  reflexivity.
Defined.

Lemma Execute_register_other_witness :
  Forall (fun st => Step.Action st <> "flaky") (Workflow.Steps twoNoops) /\
  Execute (RegisterAction pureEngine "flaky" flaky) background twoNoops
    initial =
  Execute pureEngine background twoNoops initial.
Proof.
  assert (H : Forall (fun st => Step.Action st <> "flaky")
                (Workflow.Steps twoNoops))
    by (repeat constructor; done).
  split; [done|].
  apply (Execute_register_other pureEngine "flaky" flaky background twoNoops
           initial H).
Defined.

Lemma ExecuteStep_registered_handler_witness :
  applyTimeout background (Step.Timeout echoStep) = inl background /\
  let run :=
    ExecuteStep (RegisterAction stubEngine (Step.Action echoStep) noop)
      background echoStep callerInputs initial in
  let call :=
    noop background (Step.With echoStep ∪ callerInputs) (world initial) in
  calls run.2 =
    calls initial ++
      [(Step.Action echoStep, Step.With echoStep ∪ callerInputs)] /\
  world run.2 = call.2 /\
  run.1.2 = call.1.2 /\
  StepResult.Status <$> run.1.1 =
    Some (match call.1.2 with
          | Some _ => StatusFailed
          | None => StatusCompleted
          end).
Proof.
  split; [reflexivity|].
  apply (ExecuteStep_registered_handler stubEngine noop background echoStep
           callerInputs initial background).
  reflexivity.
Defined.

Lemma NewEngine_runs_nothing_witness :
  Workflow.Steps twoNoops <> [] /\
  is_Some (Execute NewEngine background twoNoops initial).1.2 /\
  (length (resultSteps (Execute NewEngine background twoNoops initial).1.1)
   <= 1)%nat /\
  calls (Execute NewEngine background twoNoops initial).2 = calls initial /\
  world (Execute NewEngine background twoNoops initial).2 = world initial.
Proof.
  assert (H : Workflow.Steps twoNoops <> []) by done.
  split; [done|].
  apply (NewEngine_runs_nothing background twoNoops initial H).
Defined.

Lemma Execute_ignores_steps_after_failure_witness :
  (Execute stubEngine background (mkWorkflow [mkStep "s1" "missing"])
     initial).1.2 = Some (Errorf_unknown_action "missing") /\
  Execute stubEngine background
    (withSteps (mkWorkflow [mkStep "s1" "missing"])
       (Workflow.Steps (mkWorkflow [mkStep "s1" "missing"])
          ++ [mkStep "s2" "noop"])) initial =
  Execute stubEngine background (mkWorkflow [mkStep "s1" "missing"]) initial.
Proof.
  split; [by vm_compute|].
  apply (Execute_ignores_steps_after_failure stubEngine background
           (mkWorkflow [mkStep "s1" "missing"]) initial
           [mkStep "s2" "noop"] (Errorf_unknown_action "missing")).
  by vm_compute.
Defined.

Lemma Execute_single_step_witness :
  applyTimeout background (Workflow.Timeout (mkWorkflow [namedStep])) =
    inl background /\
  Workflow.Steps (mkWorkflow [namedStep]) = [namedStep] /\
  resultSteps
    (Execute stubEngine background (mkWorkflow [namedStep]) initial).1.1 =
    [(ExecuteStep stubEngine background namedStep ∅ (tick initial)).1.1] /\
  (Execute stubEngine background (mkWorkflow [namedStep]) initial).1.2 =
    (ExecuteStep stubEngine background namedStep ∅ (tick initial)).1.2 /\
  (Execute stubEngine background (mkWorkflow [namedStep]) initial).2 =
    tick (ExecuteStep stubEngine background namedStep ∅ (tick initial)).2.
Proof.
  split; [reflexivity|]. split; [reflexivity|].
  apply (Execute_single_step stubEngine background (mkWorkflow [namedStep])
           initial background namedStep); reflexivity.
Defined.

Lemma Execute_no_steps_witness :
  applyTimeout background (Workflow.Timeout noSteps) = inl background /\
  Workflow.Steps noSteps = [] /\
  is_Some (Validate noSteps) /\
  (Execute stubEngine background noSteps initial).1.2 = None /\
  WorkflowResult.Status <$>
    (Execute stubEngine background noSteps initial).1.1 =
    Some StatusCompleted /\
  WorkflowResult.Steps <$>
    (Execute stubEngine background noSteps initial).1.1 = Some [] /\
  calls (Execute stubEngine background noSteps initial).2 = calls initial.
Proof.
  split; [reflexivity|]. split; [reflexivity|].
  apply (Execute_no_steps stubEngine background noSteps initial background);
    reflexivity.
Defined.

Lemma Execute_timeline_witness :
  applyTimeout background (Workflow.Timeout twoNoops) = inl background /\
  exists r,
    (Execute stubEngine background twoNoops initial).1.1 = Some r /\
    timeline r =
      Now <$> seq (ticks initial) (2 * length (WorkflowResult.Steps r) + 2) /\
    ticks (Execute stubEngine background twoNoops initial).2 =
      (ticks initial + 2 * length (WorkflowResult.Steps r) + 2)%nat.
Proof.
  split; [reflexivity|].
  apply (Execute_timeline stubEngine background twoNoops initial background).
  reflexivity.
Defined.

Lemma Execute_timestamps_ordered_witness :
  @monotoneClock stubRuntime /\
  applyTimeout background (Workflow.Timeout twoNoops) = inl background /\
  exists r,
    (Execute stubEngine background twoNoops initial).1.1 = Some r /\
    Sorted Z.le (timeline r) /\
    Forall stepTimed (WorkflowResult.Steps r) /\
    WorkflowResult.Duration r =
      Sub (WorkflowResult.EndTime r) (WorkflowResult.StartTime r) /\
    (0 <= WorkflowResult.Duration r)%Z.
Proof.
  split; [apply stubRuntime_monotone|]. split; [reflexivity|].
  apply (Execute_timestamps_ordered stubEngine background twoNoops initial
           background stubRuntime_monotone).
  reflexivity.
Defined.

(** *** Instances for the store *)

#[local] Existing Instance stubHost.

Lemma savedTwo_values :
  @fmap list _ (string * loc) loc snd
    (@map_to_list string loc _ _ (memories savedTwo)) =
  [2; 1]%positive.
Proof. by vm_compute. Qed.

Lemma savedTwo_newestFirst : newestFirst (heap savedTwo) [2; 1]%positive.
Proof.
  repeat constructor. by vm_compute.
Qed.

Lemma savedTwo_Listed flt :
  passes flt (heap savedTwo 1%positive) = true ->
  passes flt (heap savedTwo 2%positive) = true ->
  Listed savedTwo flt (page flt (Some [2; 1]%positive)).
Proof.
  intros H1 H2.
  apply (ListedAs savedTwo flt [2; 1]%positive [2; 1]%positive).
  - by rewrite savedTwo_values.
  - by rewrite !filter_cons_True.
  - apply savedTwo_newestFirst.
Qed.

Lemma savedTwo_Listed_none flt :
  passes flt (heap savedTwo 1%positive) = false ->
  passes flt (heap savedTwo 2%positive) = false ->
  Listed savedTwo flt (page flt None).
Proof.
  intros H1 H2.
  apply (ListedAs savedTwo flt [2; 1]%positive []).
  - by rewrite savedTwo_values.
  - rewrite !filter_cons_False; [done | congruence | congruence].
  - constructor.
Qed.

Lemma Save_leaves_others_witness :
  "uuid-0" <>
    Memory.ID (heap (Save 2%positive
                       (Save 1%positive (NewInMemoryStore blankHeap)).2).2
                 2%positive) /\
  1%positive <> 2%positive /\
  Get "uuid-0"
    (Save 2%positive (Save 1%positive (NewInMemoryStore blankHeap)).2).2 =
    Get "uuid-0" (Save 1%positive (NewInMemoryStore blankHeap)).2 /\
  heap (Save 2%positive (Save 1%positive (NewInMemoryStore blankHeap)).2).2
    1%positive =
    heap (Save 1%positive (NewInMemoryStore blankHeap)).2 1%positive.
Proof.
  assert (H1 : "uuid-0" <>
    Memory.ID (heap (Save 2%positive
                       (Save 1%positive (NewInMemoryStore blankHeap)).2).2
                 2%positive)) by by vm_compute.
  assert (H2 : 1%positive <> 2%positive) by done.
  split; [done|]. split; [done|].
  apply (Save_leaves_others 2%positive
           (Save 1%positive (NewInMemoryStore blankHeap)).2 "uuid-0"
           1%positive H1 H2).
Defined.

Lemma Listed_is_page_witness :
  Listed savedTwo (Some (pageFilter 1 1))
    (page (Some (pageFilter 1 1)) (Some [2; 1]%positive)) /\
  exists sorted,
    sorted ≡ₚ matching savedTwo (Some (pageFilter 1 1)) /\
    newestFirst (heap savedTwo) sorted /\
    elems (page (Some (pageFilter 1 1)) (Some [2; 1]%positive)) =
      take (if (0 <? Filter.Limit (pageFilter 1 1))%Z
            then Z.to_nat (Filter.Limit (pageFilter 1 1))
            else length sorted)
           (drop (Z.to_nat (Filter.Offset (pageFilter 1 1))) sorted).
Proof.
  assert (H : Listed savedTwo (Some (pageFilter 1 1))
                (page (Some (pageFilter 1 1)) (Some [2; 1]%positive)))
    by (apply savedTwo_Listed; reflexivity).
  split; [done|].
  apply (Listed_is_page savedTwo (pageFilter 1 1) _ H).
Defined.

Lemma Listed_unfiltered_witness :
  Listed savedTwo None (page None (Some [2; 1]%positive)) /\
  elems (page None (Some [2; 1]%positive))
    ≡ₚ (map_to_list (memories savedTwo)).*2 /\
  newestFirst (heap savedTwo) (elems (page None (Some [2; 1]%positive))) /\
  (page None (Some [2; 1]%positive) = None <-> memories savedTwo = ∅).
Proof.
  assert (H : Listed savedTwo None (page None (Some [2; 1]%positive)))
    by (apply savedTwo_Listed; reflexivity).
  split; [done|].
  apply (Listed_unfiltered savedTwo _ H).
Defined.

Lemma Listed_members_witness :
  Listed savedTwo (Some (pageFilter 0 1))
    (page (Some (pageFilter 0 1)) (Some [2; 1]%positive)) /\
  Forall (fun p => (exists id, memories savedTwo !! id = Some p) /\
                   passes (Some (pageFilter 0 1)) (heap savedTwo p) = true)
         (elems (page (Some (pageFilter 0 1)) (Some [2; 1]%positive))) /\
  newestFirst (heap savedTwo)
    (elems (page (Some (pageFilter 0 1)) (Some [2; 1]%positive))).
Proof.
  assert (H : Listed savedTwo (Some (pageFilter 0 1))
                (page (Some (pageFilter 0 1)) (Some [2; 1]%positive)))
    by (apply savedTwo_Listed; reflexivity).
  split; [done|].
  apply (Listed_members savedTwo _ _ H).
Defined.

Lemma Listed_limit_witness :
  (0 < Filter.Limit (pageFilter 0 1))%Z /\
  Listed savedTwo (Some (pageFilter 0 1))
    (page (Some (pageFilter 0 1)) (Some [2; 1]%positive)) /\
  (Z.of_nat (length (elems (page (Some (pageFilter 0 1))
                              (Some [2; 1]%positive))))
   <= Filter.Limit (pageFilter 0 1))%Z.
Proof.
  assert (H0 : (0 < Filter.Limit (pageFilter 0 1))%Z) by done.
  assert (H : Listed savedTwo (Some (pageFilter 0 1))
                (page (Some (pageFilter 0 1)) (Some [2; 1]%positive)))
    by (apply savedTwo_Listed; reflexivity).
  split; [done|]. split; [done|].
  apply (Listed_limit savedTwo (pageFilter 0 1) _ H0 H).
Defined.

Lemma Listed_beyond_offset_witness :
  (Z.of_nat (length (matching savedTwo (Some (typeFilter "semantic"))))
   <= Filter.Offset (typeFilter "semantic"))%Z /\
  Listed savedTwo (Some (typeFilter "semantic"))
    (page (Some (typeFilter "semantic")) None) /\
  page (Some (typeFilter "semantic")) None = Some [].
Proof.
  assert (H0 : (Z.of_nat
                  (length (matching savedTwo (Some (typeFilter "semantic"))))
                <= Filter.Offset (typeFilter "semantic"))%Z)
    by by vm_compute.
  assert (H : Listed savedTwo (Some (typeFilter "semantic"))
                (page (Some (typeFilter "semantic")) None))
    by (apply savedTwo_Listed_none; reflexivity).
  split; [done|]. split; [done|].
  apply (Listed_beyond_offset savedTwo (typeFilter "semantic") _ H0 H).
Defined.
